(** * 2310depot: a shallow embedding of [2310depot.c]

    The depot is a C program: one process-wide [Depot] structure (inventory
    and neighbours), one [ThreadInfo] per session (deferred commands and
    handshake flags), a line scanner ([validate_input]) and seven verb
    handlers.  The embedding follows the source function by function.

    Conventions of the model.
    - A C string is a [string]; [strlen s == 0] is [s = ""].
    - [int] is a [Z] kept in the 32-bit signed range by [to_int], which is
      also what [int] addition and subtraction wrap to; [long] is a [Z] in
      the 64-bit range (LP64).
    - [malloc]ed buffers read as zero-filled, so a field that the scanner
      never writes is the empty string, a field it writes ends where the
      writing stopped, and [strcat] on a fresh buffer starts from the
      empty string.
    - A line is its text up to the newline that [fgets] delivers with it;
      the scanner stops at the first newline, and the end of the [string]
      stands for it when there is none.
    - Arrays ([resources], [neighbours], [deferred], [args]) are lists;
      the element counts ([numResources], [numNeighbours], [deferCount])
      are their lengths.  The fixed capacities (2048, 256, 1024, 256) are
      not modelled.
    - One session is modelled at a time, together with the depot it points
      to.  The thread started by [connect_message] is recorded as an event
      and not run.
    - [validate_input] and [execute_message] are mutually recursive; the
      model bounds the nesting by [fuel], and [validate_input_total] shows
      which fuel is enough. *)

From Stdlib Require Import ZArith List String Ascii Bool Lia.
From Stdlib Require Import Permutation Sorted.
Import ListNotations.

Local Open Scope Z_scope.
Local Open Scope string_scope.
Local Open Scope list_scope.

Infix "+++" := String.append (right associativity, at level 60).

(** ** The C library functions the program calls *)

Module Libc.

Definition INT_MODULUS : Z := 2 ^ 32.
Definition INT_MIN : Z := - 2 ^ 31.
Definition INT_MAX : Z := 2 ^ 31 - 1.
Definition LONG_MIN : Z := - 2 ^ 63.
Definition LONG_MAX : Z := 2 ^ 63 - 1.

(** Conversion to [int]: the value modulo 2^32, read as two's complement. *)
Definition to_int (z : Z) : Z :=
  (z - INT_MIN) mod INT_MODULUS + INT_MIN.

Definition in_int (z : Z) : Prop := INT_MIN <= z <= INT_MAX.

Definition newline : ascii := "010"%char.
Definition colon : ascii := ":"%char.

(** [isspace] in the C locale: space, \t, \n, \v, \f, \r. *)
Definition isspace (c : ascii) : bool :=
  let n := N_of_ascii c in
  (n =? 32)%N || ((9 <=? n)%N && (n <=? 13)%N).

Definition isdigit (c : ascii) : bool :=
  let n := N_of_ascii c in (48 <=? n)%N && (n <=? 57)%N.

Definition digit_val (c : ascii) : Z := Z.of_N (N_of_ascii c) - 48.

Fixpoint skip_space (s : string) : string :=
  match s with
  | String c r => if isspace c then skip_space r else s
  | EmptyString => s
  end.

(** The longest run of decimal digits, with its value. *)
Fixpoint digits (acc : Z) (s : string) : Z * string :=
  match s with
  | String c r =>
      if isdigit c then digits (10 * acc + digit_val c) r else (acc, s)
  | EmptyString => (acc, s)
  end.

Definition clamp_long (z : Z) : Z :=
  Z.max LONG_MIN (Z.min LONG_MAX z).

Definition starts_with_digit (s : string) : bool :=
  match s with
  | String c _ => isdigit c
  | EmptyString => false
  end.

(** [strtol(s, &ptr, 10)]: the value and the text [ptr] points at.
    Without any digit the value is 0 and [ptr] is [s] itself. *)
Definition strtol (s : string) : Z * string :=
  let s1 := skip_space s in
  let '(neg, s2) :=
    match s1 with
    | String "-"%char r => (true, r)
    | String "+"%char r => (false, r)
    | _ => (false, s1)
    end in
  if starts_with_digit s2 then
    let '(v, rest) := digits 0 s2 in
    (clamp_long (if neg then - v else v), rest)
  else (0, s).

(** [atoi(s)] is [(int) strtol(s, NULL, 10)]. *)
Definition atoi (s : string) : Z := to_int (fst (strtol s)).

(** [strcmp] compares bytes as unsigned characters; only the sign of the
    result is meaningful. *)
Definition strcmp (a b : string) : Z :=
  match String.compare a b with
  | Lt => -1
  | Eq => 0
  | Gt => 1
  end.

(** Decimal text of a natural number, as [printf("%d")] prints it. *)
Fixpoint decimal_pos (fuel : nat) (n : Z) (acc : string) : string :=
  match fuel with
  | O => acc
  | S f =>
      let acc' := String (ascii_of_N (Z.to_N (48 + n mod 10))) acc in
      if (n / 10 =? 0)%Z then acc' else decimal_pos f (n / 10) acc'
  end.

Definition printf_d (z : Z) : string :=
  if (z <? 0)%Z then String "-"%char (decimal_pos 20 (- z) "")
  else decimal_pos 20 z "".

End Libc.
Import Libc.

(** ** The data of the program *)

(** File handles are opaque; a number identifies the stream. *)
Definition FILEp : Type := Z.

(** [Resource]: a good and the amount of it at the depot. *)
Record Resource : Type := mkResource {
  resource : string;
  amount : Z
}.

(** [Neighbour]: a peer depot and the two streams of its session. *)
Record Neighbour : Type := mkNeighbour {
  n_name : string;
  n_portNo : Z;
  n_to : FILEp;
  n_from : FILEp
}.

(** [Depot]: the process-wide state.  [numColons] is the scratch field the
    scanner leaves the delimiter count of the last line in. *)
Record Depot : Type := mkDepot {
  numColons : Z;
  d_portNo : Z;
  d_name : string;
  resources : list Resource;
  neighbours : list Neighbour
}.

(** [Defer]: one stored command. *)
Record Defer : Type := mkDefer {
  key : Z;
  args : string;
  complete : bool
}.

(** What a session does to the outside, in order.  [Redispatch i] records
    that [execute_message] fed the stored command at index [i] of
    [deferred] back to the scanner. *)
Inductive Event : Type :=
| Sent (to : FILEp) (text : string)
| Spawned (port : Z)
| Redispatch (index : nat).

(** [ThreadInfo]: the state of one session, with the depot it points to
    and the events it has produced so far. *)
Record ThreadInfo : Type := mkThreadInfo {
  depot : Depot;
  deferred : list Defer;
  msgCount : Z;
  t_portNo : Z;
  t_to : FILEp;
  t_from : FILEp;
  imSent : bool;
  imRecieved : bool;
  events : list Event
}.

(** Field updates. *)
Definition set_numColons (n : Z) (d : Depot) : Depot :=
  mkDepot n (d_portNo d) (d_name d) (resources d) (neighbours d).

Definition set_resources (r : list Resource) (d : Depot) : Depot :=
  mkDepot (numColons d) (d_portNo d) (d_name d) r (neighbours d).

Definition set_neighbours (n : list Neighbour) (d : Depot) : Depot :=
  mkDepot (numColons d) (d_portNo d) (d_name d) (resources d) n.

Definition set_depot (d : Depot) (t : ThreadInfo) : ThreadInfo :=
  mkThreadInfo d (deferred t) (msgCount t) (t_portNo t) (t_to t) (t_from t)
               (imSent t) (imRecieved t) (events t).

Definition set_deferred (l : list Defer) (t : ThreadInfo) : ThreadInfo :=
  mkThreadInfo (depot t) l (msgCount t) (t_portNo t) (t_to t) (t_from t)
               (imSent t) (imRecieved t) (events t).

Definition set_msgCount (n : Z) (t : ThreadInfo) : ThreadInfo :=
  mkThreadInfo (depot t) (deferred t) n (t_portNo t) (t_to t) (t_from t)
               (imSent t) (imRecieved t) (events t).

Definition set_portNo (p : Z) (t : ThreadInfo) : ThreadInfo :=
  mkThreadInfo (depot t) (deferred t) (msgCount t) p (t_to t) (t_from t)
               (imSent t) (imRecieved t) (events t).

Definition set_imRecieved (b : bool) (t : ThreadInfo) : ThreadInfo :=
  mkThreadInfo (depot t) (deferred t) (msgCount t) (t_portNo t) (t_to t)
               (t_from t) (imSent t) b (events t).

Definition emit (e : Event) (t : ThreadInfo) : ThreadInfo :=
  mkThreadInfo (depot t) (deferred t) (msgCount t) (t_portNo t) (t_to t)
               (t_from t) (imSent t) (imRecieved t) (events t ++ [e]).

(** ** Start-up: [main], [is_name_valid], [is_amount_valid],
       [gather_resources] *)

(** A start-up function either returns or calls [exit(code)]. *)
Inductive outcome (A : Type) : Type :=
| Ret (a : A)
| Exit (code : Z).
Arguments Ret {A} a.
Arguments Exit {A} code.

Definition bind {A B : Type} (m : outcome A) (k : A -> outcome B)
  : outcome B :=
  match m with
  | Ret a => k a
  | Exit c => Exit c
  end.

Notation "x <- m ;; k" := (bind m (fun x => k))
  (at level 61, m at next level, right associativity).

(** The characters of [" \n\r:"]. *)
Definition invalid_char (c : ascii) : bool :=
  Ascii.eqb c " " || Ascii.eqb c newline || Ascii.eqb c "013"
  || Ascii.eqb c colon.

Fixpoint has_invalid_char (s : string) : bool :=
  match s with
  | String c r => invalid_char c || has_invalid_char r
  | EmptyString => false
  end.

Definition is_name_valid (name : string) : outcome string :=
  if String.eqb name "" then Exit 1
  else if has_invalid_char name then Exit 2
  else Ret name.

Definition is_amount_valid (amount : string) : outcome Z :=
  let '(output, ptr) := strtol amount in
  if negb (negb (atoi amount =? 0)%Z && (0 <=? output)%Z
          && String.eqb ptr "")
  then Exit 3
  else Ret (to_int output).

(** [gather_resources] walks [argv] from index 2: a good at every even
    offset, its quantity at the next one.  A trailing good without a
    quantity is checked but not counted ([j] is not advanced). *)
Fixpoint gather_resources (resources : list string)
  : outcome (list Resource) :=
  match resources with
  | good :: qty :: rest =>
      r <- is_name_valid good ;;
      a <- is_amount_valid qty ;;
      loot <- gather_resources rest ;;
      Ret (mkResource r a :: loot)
  | [good] => _ <- is_name_valid good ;; Ret []
  | [] => Ret []
  end.

(** [main] up to the call of [init_server]: the depot with its name and
    start-up inventory.  The port and the neighbour array are set by
    [init_server]; [port] stands for the port the kernel picked. *)
Definition main (port : Z) (argv : list string) : outcome Depot :=
  match argv with
  | _ :: name :: rest =>
      _ <- is_name_valid name ;;
      loot <- gather_resources rest ;;
      Ret (mkDepot 0 port name loot [])
  | _ => Exit 1
  end.

(** ** The scanner of [validate_input] *)

Definition nl : string := String newline "".

(** The loop that fills [args].  A [':'] at the top of an iteration closes
    the current field; the character after it is then copied into the new
    field without being looked at ([literal] is true for exactly that
    character), unless it is the newline, which ends the scan.  The result
    lists the fields written; the end of [input] is read as the newline
    that ends every line. *)
Fixpoint fill_args (literal : bool) (input : string) : list string :=
  match input with
  | EmptyString => [""]
  | String c rest =>
      if Ascii.eqb c newline then [""]
      else if negb literal && Ascii.eqb c colon then
        "" :: fill_args true rest
      else
        match fill_args false rest with
        | field :: fields => String c field :: fields
        | [] => [String c ""]
        end
  end.

(** [args[i]]: a buffer the scanner did not reach is empty. *)
Definition arg (i : nat) (args : list string) : string := nth i args "".

(** The value the scanner leaves in [numColons]: one per closed field. *)
Definition count_colons (args : list string) : Z :=
  Z.of_nat (List.length args) - 1.

(** The table [messages]. *)
Definition messages : list string :=
  ["Connect"; "IM"; "Deliver"; "Withdraw"; "Transfer"; "Defer"; "Execute"].

Fixpoint find_message (verb : string) (i : nat) (table : list string)
  : option nat :=
  match table with
  | [] => None
  | m :: rest =>
      if (strcmp verb m =? 0)%Z then Some i else find_message verb (S i) rest
  end.

(** ** Field validation: [verify_num], [verify_name] *)

Definition verify_num (input : string) : Z :=
  let '(output, ptr) := strtol input in
  if String.eqb ptr "" && (0 <? output)%Z then to_int output else 0.

Definition verify_name (input : string) : string :=
  if negb (String.eqb input "") then
    if has_invalid_char input then "" else input
  else "".

(** ** The verb handlers *)

Definition connect_message (args : list string) (threadInfo : ThreadInfo)
  : ThreadInfo :=
  let portNum := verify_num (arg 1 args) in
  (* [memcpy] copies the pointer: [newConnection] is [threadInfo] itself *)
  let threadInfo := set_portNo portNum threadInfo in
  if negb (portNum =? 0)%Z && Bool.eqb (imRecieved threadInfo) true then
    emit (Spawned portNum) threadInfo
  else threadInfo.

(** The search loop of [im_message]. *)
Fixpoint neighbour_found (name : string) (portNo : Z)
    (ns : list Neighbour) (found : bool) : bool :=
  match ns with
  | [] => found
  | n :: rest =>
      if (strcmp name (n_name n) =? 0)%Z then
        neighbour_found name portNo rest true
      else if (portNo =? n_portNo n)%Z then
        neighbour_found name portNo rest true
      else neighbour_found name portNo rest found
  end.

Definition im_message (args : list string) (threadInfo : ThreadInfo)
  : ThreadInfo :=
  let depot := depot threadInfo in
  let portNum := verify_num (arg 1 args) in
  let depotName := verify_name (arg 2 args) in
  if negb ((portNum =? 0)%Z || (strcmp depotName "" =? 0)%Z)
     && (numColons depot =? 2)%Z && negb (imRecieved threadInfo) then
    if negb (neighbour_found depotName portNum (neighbours depot) false) then
      let neighbour :=
        mkNeighbour depotName portNum (t_to threadInfo) (t_from threadInfo) in
      set_imRecieved true
        (set_depot (set_neighbours (neighbours depot ++ [neighbour]) depot)
                   threadInfo)
    else threadInfo
  else threadInfo.

(** The loop shared by [deliver_message] and [withdraw_message]: the first
    entry named [good] gets its amount replaced by [update] of it. *)
Fixpoint update_first (good : string) (update : Z -> Z)
    (rs : list Resource) (delivered : bool) : list Resource * bool :=
  match rs with
  | [] => ([], delivered)
  | r :: rest =>
      if (strcmp good (resource r) =? 0)%Z && negb delivered then
        let '(rest', d) := update_first good update rest true in
        (mkResource (resource r) (update (amount r)) :: rest', d)
      else
        let '(rest', d) := update_first good update rest delivered in
        (r :: rest', d)
  end.

Definition deliver_message (args : list string) (threadInfo : ThreadInfo)
  : ThreadInfo :=
  let depot := depot threadInfo in
  let amount := verify_num (arg 1 args) in
  let good := verify_name (arg 2 args) in
  if (0 <? amount)%Z && (numColons depot =? 2)%Z then
    let '(rs, delivered) :=
      update_first good (fun a => to_int (a + amount)) (resources depot)
                   false in
    let rs := if negb delivered then rs ++ [mkResource good amount] else rs in
    set_depot (set_resources rs depot) threadInfo
  else threadInfo.

Definition withdraw_message (args : list string) (threadInfo : ThreadInfo)
  : ThreadInfo :=
  let depot := depot threadInfo in
  let amount := verify_num (arg 1 args) in
  let good := verify_name (arg 2 args) in
  if (0 <? amount)%Z && (numColons depot =? 2)%Z then
    let '(rs, delivered) :=
      update_first good (fun a => to_int (a - amount)) (resources depot)
                   false in
    let rs :=
      if negb delivered then rs ++ [mkResource good (to_int (0 - amount))]
      else rs in
    set_depot (set_resources rs depot) threadInfo
  else threadInfo.

(** [transfer_message]: [numColons] is forced to 2, then the first
    neighbour named [args[3]] gets the withdraw and the [Deliver] line. *)
Definition transfer_message (args : list string) (threadInfo : ThreadInfo)
  : ThreadInfo :=
  let messageArgs := [""; arg 1 args; arg 2 args] in
  let threadInfo :=
    set_depot (set_numColons 2 (depot threadInfo)) threadInfo in
  match find (fun n => (strcmp (arg 3 args) (n_name n) =? 0)%Z)
             (neighbours (depot threadInfo)) with
  | Some n =>
      emit (Sent (n_to n)
                 ("Deliver:" +++ arg 1 args +++ ":" +++ arg 2 args +++ nl))
           (withdraw_message messageArgs threadInfo)
  | None => threadInfo
  end.

(** [defer_creator]: the stored command is rebuilt from [args[2]] on, and
    only when exactly three or four of those fields are non-empty. *)
Definition defer_creator (args : list string) : string :=
  let numArgs :=
    List.length (filter (fun a => negb (String.eqb a "")) (skipn 2 args)) in
  if Nat.eqb numArgs 3 then
    arg 2 args +++ ":" +++ arg 3 args +++ ":" +++ arg 4 args +++ nl
  else if Nat.eqb numArgs 4 then
    arg 2 args +++ ":" +++ arg 3 args +++ ":" +++ arg 4 args +++ ":"
      +++ arg 5 args +++ nl
  else "".

Definition defer_message (args : list string) (threadInfo : ThreadInfo)
  : ThreadInfo :=
  let defArgs := defer_creator args in
  let '(key, ptr) := strtol (arg 1 args) in
  if String.eqb ptr "" && (0 <? key)%Z && negb (String.eqb defArgs "") then
    set_deferred (deferred threadInfo ++ [mkDefer key defArgs false])
                 threadInfo
  else threadInfo.

(** The first loop of [execute_message]: every entry with the key that is
    not complete is put on [toExec] and marked complete.  [toExec] holds
    pointers to the stored texts; the index says which entry the pointer
    belongs to. *)
Fixpoint collect (k : Z) (i : nat) (ds : list Defer)
  : list (nat * string) * list Defer :=
  match ds with
  | [] => ([], [])
  | d :: rest =>
      let '(toExec, rest') := collect k (S i) rest in
      if (k =? key d)%Z && Bool.eqb (complete d) false then
        ((i, args d) :: toExec, mkDefer (key d) (args d) true :: rest')
      else (toExec, d :: rest')
  end.

(** The second loop of [execute_message]: each collected text goes through
    [validate] (the scanner) in turn. *)
Fixpoint run_all (validate : string -> ThreadInfo -> option ThreadInfo)
    (toExec : list (nat * string)) (threadInfo : ThreadInfo)
  : option ThreadInfo :=
  match toExec with
  | [] => Some threadInfo
  | (i, text) :: rest =>
      match validate text (emit (Redispatch i) threadInfo) with
      | Some threadInfo' => run_all validate rest threadInfo'
      | None => None
      end
  end.

Definition execute_message
    (validate : string -> ThreadInfo -> option ThreadInfo)
    (args : list string) (threadInfo : ThreadInfo) : option ThreadInfo :=
  let '(k, ptr) := strtol (arg 1 args) in
  if String.eqb ptr "" && (0 <? k)%Z then
    let '(toExec, ds) := collect k 0 (deferred threadInfo) in
    run_all validate toExec (set_deferred ds threadInfo)
  else Some threadInfo.

(** ** Dispatch: [do_input], [validate_input] *)

Definition do_input (validate : string -> ThreadInfo -> option ThreadInfo)
    (args : list string) (msg : nat) (threadInfo : ThreadInfo)
  : option ThreadInfo :=
  match msg with
  | 0%nat => Some (connect_message args threadInfo)
  | 1%nat => Some (im_message args threadInfo)
  | 2%nat => Some (deliver_message args threadInfo)
  | 3%nat => Some (withdraw_message args threadInfo)
  | 4%nat => Some (transfer_message args threadInfo)
  | 5%nat => Some (defer_message args threadInfo)
  | 6%nat => execute_message validate args threadInfo
  | _ => Some threadInfo
  end.

(** [validate_input] and [execute_message] call each other; [fuel] bounds
    how deep that nesting may go, and [None] means it was not enough. *)
Fixpoint validate_input (fuel : nat) (input : string)
    (threadInfo : ThreadInfo) : option ThreadInfo :=
  match fuel with
  | O => None
  | S fuel' =>
      let args := fill_args false input in
      let threadInfo :=
        set_depot (set_numColons (count_colons args) (depot threadInfo))
                  threadInfo in
      match find_message (arg 0 args) 0 messages with
      | Some i => do_input (validate_input fuel') args i threadInfo
      | None => Some threadInfo
      end
  end.

(** ** The session loop: [client_connections] *)

(** The [while (fgets ...)] loop over the lines the peer sends.  It ends
    when the lines run out or when the check on [msgCount] breaks out of
    it; the lines not read are returned with the final state. *)
Fixpoint session_loop (fuel : nat) (lines : list string)
    (threadInfo : ThreadInfo) : option (ThreadInfo * list string) :=
  match lines with
  | [] => Some (threadInfo, [])
  | inputMessage :: rest =>
      if (1 <? msgCount threadInfo)%Z
         && negb (imRecieved threadInfo && imSent threadInfo) then
        Some (threadInfo, lines)
      else
        match validate_input fuel inputMessage threadInfo with
        | Some threadInfo' =>
            session_loop fuel rest
              (set_msgCount (msgCount threadInfo' + 1) threadInfo')
        | None => None
        end
  end.

Definition i_to_s_converter (input : Z) : string := decimal_pos 20 input "".

Definition im_creator (depot : Depot) : string :=
  "IM:" +++ i_to_s_converter (d_portNo depot) +++ ":" +++ d_name depot
    +++ nl.

(** A session on the stream pair [(to, from)] of [depot]: the own [IM] is
    written first, the flags and the deferred list are reset, then the
    loop runs. *)
Definition client_connections (fuel : nat) (threadInfo : ThreadInfo)
    (to from : FILEp) (lines : list string)
  : option (ThreadInfo * list string) :=
  let start :=
    mkThreadInfo (depot threadInfo) [] 0 (t_portNo threadInfo) to from
                 true false
                 (events threadInfo
                    ++ [Sent to (im_creator (depot threadInfo))]) in
  session_loop fuel lines start.

(** ** The snapshot: [sigcatcher], [sort_resources], [sort_neigh] *)

Definition lexo_cmp (a b : Resource) : Z := strcmp (resource a) (resource b).

Definition neigh_cmp (a b : Neighbour) : Z := strcmp (n_name a) (n_name b).

(** The text of [printf("%s %d\n", ...)] for one resource. *)
Definition goods_line (r : Resource) : string :=
  resource r +++ " " +++ printf_d (amount r) +++ nl.

Definition neighbour_line (n : Neighbour) : string := n_name n +++ nl.

Definition nonzero (r : Resource) : bool := negb (amount r =? 0)%Z.

(** The first printing loop: a resource is printed unless its amount is 0. *)
Fixpoint print_goods (rs : list Resource) : list string :=
  match rs with
  | [] => []
  | r :: rest =>
      if negb (amount r =? 0)%Z then goods_line r :: print_goods rest
      else print_goods rest
  end.

Section SnapshotModel.

(** [qsort] belongs to the C library; the model takes it as given. *)
Variable qsort : forall A : Type, (A -> A -> Z) -> list A -> list A.

Definition sort_resources (depot : Depot) : Depot :=
  set_resources (qsort Resource lexo_cmp (resources depot)) depot.

Definition sort_neigh (depot : Depot) : Depot :=
  set_neighbours (qsort Neighbour neigh_cmp (neighbours depot)) depot.

(** One turn of the loop of [sigcatcher], for one [SIGHUP]: the texts
    written to standard output in order, and the depot, whose two arrays
    the handler has sorted in place. *)
Definition sigcatcher (depot : Depot) : list string * Depot :=
  let depot := sort_resources depot in
  let depot := sort_neigh depot in
  ([("Goods:" +++ nl)%string]
     ++ print_goods (resources depot)
     ++ [("Neighbours:" +++ nl)%string]
     ++ map neighbour_line (neighbours depot),
   depot).

End SnapshotModel.

(** * Notions used in the statements *)

(** ** The inventory *)

Definition names (rs : list Resource) : list string := map resource rs.

Definition has_entry (good : string) (rs : list Resource) : bool :=
  existsb (fun r => String.eqb good (resource r)) rs.

(** The amount held of a good: that of its first entry, 0 without one. *)
Definition quantity (good : string) (rs : list Resource) : Z :=
  match find (fun r => String.eqb good (resource r)) rs with
  | Some r => amount r
  | None => 0
  end.

(** Every good has at most one entry. *)
Definition one_entry_per_good (rs : list Resource) : Prop :=
  forall good, (count_occ string_dec (names rs) good <= 1)%nat.

(** What one pass of the loop, with the append that follows it, does to
    the inventory. *)
Definition adjust (good : string) (update : Z -> Z) (fresh : Z)
    (rs : list Resource) : list Resource :=
  let '(rs', delivered) := update_first good update rs false in
  if negb delivered then rs' ++ [mkResource good fresh] else rs'.

(** ** Fields and lines *)

(** A plain field has no [':'] and no newline. *)
Fixpoint plain (s : string) : bool :=
  match s with
  | EmptyString => true
  | String c r =>
      negb (Ascii.eqb c newline) && negb (Ascii.eqb c colon) && plain r
  end.

(** The shape of a field the scanner can produce after a delimiter: any
    first character but the newline, then plain text. *)
Definition tail_plain (s : string) : bool :=
  match s with
  | EmptyString => true
  | String c r => negb (Ascii.eqb c newline) && plain r
  end.

Definition nonempty (s : string) : bool := negb (String.eqb s "").

Definition prepend (p : string) (fields : list string) : list string :=
  match fields with
  | f :: fs => (p +++ f) :: fs
  | [] => [p]
  end.

(** The text of a line with the given fields. *)
Fixpoint join (fields : list string) : string :=
  match fields with
  | [] => ""
  | [f] => f
  | f :: fs => f +++ ":" +++ join fs
  end.

(** The fields the scanner writes: after a delimiter a field has the shape
    [tail_plain] and is not empty unless it is the last one; the first
    field of a line is plain. *)
Fixpoint inner_nonempty (fields : list string) : bool :=
  match fields with
  | [] => true
  | f :: fs =>
      match fs with
      | [] => true
      | _ => nonempty f && inner_nonempty fs
      end
  end.

Definition shape (b : bool) (fields : list string) : Prop :=
  match fields with
  | [] => False
  | f :: fs =>
      (if b then tail_plain f = true /\ inner_nonempty (f :: fs) = true
       else plain f = true)
      /\ Forall (fun g => tail_plain g = true) fs
      /\ inner_nonempty fs = true
  end.

(** ** Inert stored commands *)

(** A text is inert when feeding it to the scanner cannot append to the
    deferred list: it is not a [Defer] line that [defer_creator] accepts. *)
Definition inert (text : string) : bool :=
  let a := fill_args false text in
  negb (String.eqb (arg 0 a) "Defer") || String.eqb (defer_creator a) "".

Definition all_inert (ds : list Defer) : bool :=
  forallb (fun d => inert (args d)) ds.

(** ** One line through the scanner *)

(** The session after the scanner has left the delimiter count of [line]
    in [numColons], before the verb is dispatched. *)
Definition scanned (line : string) (ti : ThreadInfo) : ThreadInfo :=
  set_depot
    (set_numColons (count_colons (fill_args false line)) (depot ti)) ti.

Ltac break_if :=
  repeat match goal with
         | |- context [if ?c then _ else _] => destruct c
         | |- context [let '(_, _) := ?p in _] => destruct p
         | |- context [match ?p with Some _ => _ | None => _ end] =>
             destruct p
         end.

(** The indices of the stored commands that an event list re-dispatches. *)
Fixpoint redispatched (evs : list Event) : list nat :=
  match evs with
  | [] => []
  | Redispatch i :: rest => i :: redispatched rest
  | _ :: rest => redispatched rest
  end.

(** [quiet ti ti']: the step re-dispatched nothing, and the deferred list
    grew at its end, if at all. *)
Definition quiet (ti ti' : ThreadInfo) : Prop :=
  (exists extra, deferred ti' = deferred ti ++ extra)
  /\ (exists new, events ti' = events ti ++ new /\ redispatched new = []).

(** ** The deferred list under [Execute] *)

(** [marks_only ds ds']: the same entries, some more of them complete. *)
Definition marks_only (ds ds' : list Defer) : Prop :=
  Forall2 (fun d d' => key d' = key d /\ args d' = args d
                       /\ (complete d = true -> complete d' = true))
          ds ds'.

Definition pending (ds : list Defer) : nat :=
  List.length (filter (fun d => negb (complete d)) ds).

(** The entries [Execute] with key [k] picks: not complete, key [k]. *)
Definition picked (k : Z) (d : Defer) : bool :=
  (k =? key d)%Z && Bool.eqb (complete d) false.

Definition mark (k : Z) (d : Defer) : Defer :=
  if picked k d then mkDefer (key d) (args d) true else d.

(** The batch of [Execute] with key [k], read off the list: indices and
    texts of the picked entries, in the order of the list. *)
Fixpoint batch (k : Z) (i : nat) (ds : list Defer) : list (nat * string) :=
  match ds with
  | [] => []
  | d :: rest =>
      if picked k d then (i, args d) :: batch k (S i) rest
      else batch k (S i) rest
  end.

(** ** Which stored commands are re-dispatched *)

Definition complete_at (i : nat) (ds : list Defer) : Prop :=
  exists d, nth_error ds i = Some d /\ complete d = true.

(** Every index of [prot] holds a complete entry. *)
Definition protected (prot : list nat) (ds : list Defer) : Prop :=
  forall i, In i prot -> complete_at i ds.

(** [fresh prot ti ti']: going from [ti] to [ti'], the entries at [prot]
    stayed complete, and the stored commands re-dispatched on the way were
    pairwise distinct, outside [prot], and are complete at the end. *)
Definition fresh (prot : list nat) (ti ti' : ThreadInfo) : Prop :=
  protected prot (deferred ti')
  /\ exists new,
      events ti' = events ti ++ new
      /\ NoDup (redispatched new)
      /\ forall i, In i (redispatched new) ->
                   ~ In i prot /\ complete_at i (deferred ti').

Definition inventory_ok (ti : ThreadInfo) : Prop :=
  one_entry_per_good (resources (depot ti)).

(** ** Start-up *)

(** The goods named on the command line, each with a quantity after it. *)
Fixpoint paired_goods (l : list string) : list string :=
  match l with
  | good :: _ :: rest => good :: paired_goods rest
  | _ => []
  end.

Definition field_ok (f : string) : Prop := plain f = true /\ f <> "".

(** ** Well-formed inventory commands *)



(** Every amount is an [int]. *)
Definition amounts_in_int (rs : list Resource) : Prop :=
  Forall (fun r => in_int (amount r)) rs.

(** ** A sort to run the snapshot with *)

(** An insertion sort: one function that meets the contract of [qsort]. *)
Fixpoint insert_sorted {A : Type} (cmp : A -> A -> Z) (x : A) (l : list A)
  : list A :=
  match l with
  | [] => [x]
  | y :: rest =>
      if (cmp x y <=? 0)%Z then x :: l else y :: insert_sorted cmp x rest
  end.

Definition insertion_sort (A : Type) (cmp : A -> A -> Z) (l : list A)
  : list A :=
  fold_right (insert_sorted cmp) [] l.


(** ** Notions for the further properties *)

(** No two neighbours share a name, and no two share a port. *)
Definition neighbours_distinct (ns : list Neighbour) : Prop :=
  NoDup (map n_name ns) /\ NoDup (map n_portNo ns).

Ltac frame_step :=
  intros;
  unfold connect_message, im_message, deliver_message, withdraw_message,
    transfer_message, defer_message, scanned in *;
  break_if; simpl in *; auto.


(** The first neighbour with the given name, as [transfer_message] looks
    it up. *)
Definition find_neighbour (target : string) (ns : list Neighbour)
  : option Neighbour :=
  find (fun n => (strcmp target (n_name n) =? 0)%Z) ns.

(** A name as [is_name_valid] and [verify_name] accept it. *)
Definition valid_name (s : string) : Prop :=
  s <> "" /\ has_invalid_char s = false.

(** An inventory entry as start-up can record it. *)
Definition startup_entry_ok (r : Resource) : Prop :=
  valid_name (resource r) /\ amount r <> 0 /\ in_int (amount r).

(** The character [nums[r]] of [i_to_s_converter]. *)
Definition digit_char (r : Z) : ascii := ascii_of_N (Z.to_N (48 + r)).

(** [new_connection]: the session on a connection this depot dialled.  It
    gets the [ThreadInfo] of the session that asked for it, resets the
    same fields as [client_connections] and runs the same loop. *)
Definition new_connection (fuel : nat) (threadInfo : ThreadInfo)
    (to from : FILEp) (lines : list string)
  : option (ThreadInfo * list string) :=
  let start :=
    mkThreadInfo (depot threadInfo) [] 0 (t_portNo threadInfo) to from
                 true false
                 (events threadInfo
                    ++ [Sent to (im_creator (depot threadInfo))]) in
  session_loop fuel lines start.

(** * Properties *)

(** ** Facts about the library functions *)

Lemma compare_refl (s : string) : String.compare s s = Eq.
Proof.
  induction s as [|c s IH]; simpl; [reflexivity|].
  unfold Ascii.compare. now rewrite N.compare_refl.
Qed.

Lemma strcmp_eqb (a b : string) : (strcmp a b =? 0)%Z = String.eqb a b.
Proof.
  unfold strcmp. destruct (String.eqb_spec a b) as [->|Hne].
  - now rewrite compare_refl.
  - destruct (String.compare a b) eqn:E; try reflexivity.
    now apply String.compare_eq_iff in E.
Qed.

Lemma to_int_range (z : Z) : in_int (to_int z).
Proof.
  unfold in_int, to_int, INT_MIN, INT_MAX, INT_MODULUS.
  pose proof (Z.mod_pos_bound (z - - 2 ^ 31) (2 ^ 32) ltac:(lia)). lia.
Qed.

Lemma to_int_id (z : Z) : in_int z -> to_int z = z.
Proof.
  unfold in_int, to_int, INT_MIN, INT_MAX, INT_MODULUS. intros H.
  rewrite Z.mod_small; lia.
Qed.


Lemma verify_num_range (s : string) : in_int (verify_num s).
Proof.
  unfold verify_num. destruct (strtol s) as [output ptr].
  destruct (_ && _); [apply to_int_range|].
  unfold in_int, INT_MIN, INT_MAX. lia.
Qed.

Lemma verify_num_nonempty (s : string) : verify_num s <> 0 -> s <> "".
Proof. intros H ->. now apply H. Qed.

(** ** The inventory loop *)

Lemma one_entry_NoDup (rs : list Resource) :
  one_entry_per_good rs <-> NoDup (names rs).
Proof. unfold one_entry_per_good. symmetry. apply NoDup_count_occ. Qed.

Lemma update_first_names good update rs b :
  names (fst (update_first good update rs b)) = names rs.
Proof.
  revert b. induction rs as [|r rs IH]; intros b; simpl; [reflexivity|].
  destruct (_ && _).
  - specialize (IH true). destruct (update_first good update rs true).
    simpl in *. now rewrite IH.
  - specialize (IH b). destruct (update_first good update rs b).
    simpl in *. now rewrite IH.
Qed.

Lemma update_first_flag good update rs b :
  snd (update_first good update rs b) = b || has_entry good rs.
Proof.
  revert b. induction rs as [|r rs IH]; intros b; simpl.
  - now rewrite orb_false_r.
  - rewrite strcmp_eqb.
    destruct (String.eqb good (resource r)) eqn:E, b; simpl.
    + specialize (IH true). now destruct (update_first good update rs true).
    + specialize (IH true). now destruct (update_first good update rs true).
    + specialize (IH true). now destruct (update_first good update rs true).
    + specialize (IH false). now destruct (update_first good update rs false).
Qed.

Lemma has_entry_In good rs : has_entry good rs = true <-> In good (names rs).
Proof.
  unfold has_entry, names. rewrite existsb_exists, in_map_iff.
  split; intros [r [H1 H2]]; exists r.
  - apply String.eqb_eq in H2. now split.
  - split; [assumption|]. now apply String.eqb_eq.
Qed.

Lemma adjust_one_entry good update fresh rs :
  one_entry_per_good rs -> one_entry_per_good (adjust good update fresh rs).
Proof.
  rewrite !one_entry_NoDup. unfold adjust. intros H.
  pose proof (update_first_names good update rs false) as Hn.
  pose proof (update_first_flag good update rs false) as Hf.
  destruct (update_first good update rs false) as [rs' d]. simpl in *.
  subst d. destruct (has_entry good rs) eqn:E; simpl.
  - now rewrite Hn.
  - unfold names in *. rewrite map_app, Hn. simpl.
    apply NoDup_app; [assumption|repeat constructor; intros []|].
    intros x Hx [<-|[]].
    apply has_entry_In in Hx. congruence.
Qed.






(** ** Facts about the scanner *)

Lemma append_empty_r (s : string) : s +++ "" = s.
Proof. induction s as [|c s IH]; simpl; [reflexivity|now rewrite IH]. Qed.

Lemma append_assoc (a b c : string) : (a +++ b) +++ c = a +++ b +++ c.
Proof. induction a as [|x a IH]; simpl; [reflexivity|now rewrite IH]. Qed.

Lemma fill_args_not_nil b s : fill_args b s <> [].
Proof.
  destruct s as [|c s]; simpl; [discriminate|].
  destruct (Ascii.eqb c newline); [discriminate|].
  destruct (negb b && Ascii.eqb c colon); [discriminate|].
  destruct (fill_args false s); discriminate.
Qed.

Lemma fill_args_plain b p s :
  plain p = true -> (b = true -> p <> "") ->
  fill_args b (p +++ s) = prepend p (fill_args false s).
Proof.
  revert b. induction p as [|c p IH]; intros b Hp Hb.
  - destruct b; [now contradiction Hb|]. simpl.
    pose proof (fill_args_not_nil false s).
    destruct (fill_args false s); [contradiction|reflexivity].
  - simpl in Hp. apply andb_prop in Hp. destruct Hp as [Hc Hp].
    apply andb_prop in Hc. destruct Hc as [Hn Hc].
    apply negb_true_iff in Hn, Hc.
    simpl. rewrite Hn, Hc, andb_false_r.
    rewrite (IH false Hp) by discriminate.
    pose proof (fill_args_not_nil false s).
    destruct (fill_args false s); [contradiction|reflexivity].
Qed.

Lemma fill_args_tail_plain f s :
  tail_plain f = true -> f <> "" ->
  fill_args true (f +++ s) = prepend f (fill_args false s).
Proof.
  destruct f as [|c f]; [contradiction|]. intros H _.
  simpl in H. apply andb_prop in H. destruct H as [Hn Hp].
  apply negb_true_iff in Hn. simpl. rewrite Hn.
  rewrite (fill_args_plain false f s Hp) by discriminate.
  pose proof (fill_args_not_nil false s).
  destruct (fill_args false s); [contradiction|reflexivity].
Qed.

Lemma fill_args_colon s : fill_args false (":" +++ s) = "" :: fill_args true s.
Proof. reflexivity. Qed.

(** A line made of non-empty plain fields scans into those fields. *)
Lemma fill_args_join (fields : list string) (b : bool) :
  fields <> [] ->
  Forall (fun f => plain f = true /\ f <> "") fields ->
  fill_args b (join fields) = fields.
Proof.
  revert b. induction fields as [|f fs IH]; intros b Hne Hall;
    [contradiction|].
  inversion Hall as [|? ? [Hp Hf] Hrest]; subst.
  destruct fs as [|g fs].
  - simpl. rewrite <- (append_empty_r f) at 1.
    rewrite fill_args_plain by auto. simpl. now rewrite append_empty_r.
  - change (join (f :: g :: fs)) with (f +++ ":" +++ join (g :: fs)).
    rewrite fill_args_plain by auto. rewrite fill_args_colon.
    rewrite IH by (auto; discriminate).
    simpl. now rewrite append_empty_r.
Qed.


Lemma fill_args_shape b s : shape b (fill_args b s).
Proof.
  revert b. induction s as [|c s IH]; intros b.
  - simpl. destruct b; auto.
  - simpl. destruct (Ascii.eqb c newline) eqn:Hn.
    { simpl. destruct b; auto. }
    destruct (negb b && Ascii.eqb c colon) eqn:Hd.
    + apply andb_prop in Hd. destruct Hd as [Hb _].
      apply negb_true_iff in Hb. subst b.
      specialize (IH true). unfold shape in *.
      destruct (fill_args true s) as [|f fs]; [contradiction|].
      destruct IH as [[Hf Hi] [Hall _]]. auto.
    + specialize (IH false). unfold shape in *.
      destruct (fill_args false s) as [|f fs]; [contradiction|].
      destruct IH as [Hf [Hall Hi]].
      split; [|auto].
      destruct b; simpl in *.
      * rewrite Hn, Hf. split; [reflexivity|].
        destruct fs; [reflexivity|exact Hi].
      * now rewrite Hn, Hd, Hf.
Qed.

Lemma inner_nonempty_split (l : list string) :
  inner_nonempty l = true ->
  exists l', Forall (fun f => nonempty f = true) l'
             /\ (l = l' \/ l = l' ++ [""]).
Proof.
  induction l as [|f fs IH]; intros H.
  - exists []. auto.
  - destruct fs as [|g fs].
    + destruct (nonempty f) eqn:E.
      * exists [f]. auto.
      * exists []. split; [constructor|]. right.
        unfold nonempty in E. apply negb_false_iff, String.eqb_eq in E.
        now subst.
    + simpl in H. apply andb_prop in H. destruct H as [Hf Hi].
      destruct (IH Hi) as [l' [Hall Hl]].
      exists (f :: l'). split; [now constructor|].
      destruct Hl as [-> | ->]; auto.
Qed.

Lemma filter_nonempty_all (l : list string) :
  Forall (fun f => nonempty f = true) l -> filter nonempty l = l.
Proof.
  induction 1 as [|f l Hf _ IH]; simpl; [reflexivity|].
  now rewrite Hf, IH.
Qed.

Lemma inner_nonempty_tl (l : list string) :
  inner_nonempty l = true -> inner_nonempty (tl l) = true.
Proof.
  destruct l as [|f [|g fs]]; simpl; auto.
  intros H. apply andb_prop in H. tauto.
Qed.

(** Scanning a stored command: non-empty [tail_plain] fields joined by
    [':'] and closed by the newline. *)
Lemma fill_args_join_nl (fields : list string) (b : bool) :
  fields <> [] ->
  Forall (fun f => tail_plain f = true /\ f <> "") fields ->
  (b = false -> plain (hd "" fields) = true) ->
  fill_args b (join fields +++ nl) = fields.
Proof.
  revert b. induction fields as [|f fs IH]; intros b Hne Hall Hhd;
    [contradiction|].
  inversion Hall as [|? ? [Hp Hf] Hrest]; subst.
  assert (Hstep : forall s,
             fill_args b (f +++ s) = prepend f (fill_args false s)).
  { intros s. destruct b.
    - now apply fill_args_tail_plain.
    - apply fill_args_plain; [now apply Hhd|discriminate]. }
  destruct fs as [|g fs].
  - simpl join. rewrite Hstep. simpl. now rewrite append_empty_r.
  - change (join (f :: g :: fs)) with (f +++ ":" +++ join (g :: fs)).
    rewrite !append_assoc. rewrite Hstep.
    change (":" +++ join (g :: fs) +++ nl)
      with (":" +++ (join (g :: fs) +++ nl)).
    rewrite fill_args_colon.
    rewrite IH by (auto; discriminate).
    simpl. now rewrite append_empty_r.
Qed.

Lemma inert_stored (fields : list string) :
  (List.length fields <= 4)%nat ->
  Forall (fun f => tail_plain f = true /\ f <> "") fields ->
  inert (join fields +++ nl) = true.
Proof.
  intros Hlen Hall. unfold inert.
  destruct fields as [|f fs].
  { reflexivity. }
  destruct (plain f) eqn:Hp.
  - rewrite fill_args_join_nl by (auto; discriminate).
    apply orb_true_iff. right.
    destruct fs as [|a [|b [|c [|d fs]]]]; simpl in Hlen; try lia;
      unfold defer_creator; simpl;
      repeat match goal with
             | |- context [negb (String.eqb ?x "")] =>
                 destruct (negb (String.eqb x ""))
             end; reflexivity.
  - inversion Hall as [|? ? [Ht Hf] _]; subst.
    destruct f as [|c f]; [contradiction|].
    simpl in Ht, Hp. apply andb_prop in Ht. destruct Ht as [Hn Hpf].
    rewrite Hn, Hpf in Hp. simpl in Hp. rewrite andb_true_r in Hp.
    apply negb_false_iff in Hp. apply negb_true_iff in Hn.
    destruct fs as [|g fs]; simpl; rewrite Hn, Hp; reflexivity.
Qed.

Lemma defer_creator_inert (line : string) :
  inert (defer_creator (fill_args false line)) = true.
Proof.
  pose proof (fill_args_shape false line) as Hs.
  destruct (fill_args false line) as [|f0 fs]; [contradiction|].
  destruct Hs as [_ [Hall Hi]].
  unfold defer_creator.
  assert (Hl : exists l, skipn 2 (f0 :: fs) = l
                         /\ Forall (fun g => tail_plain g = true) l
                         /\ inner_nonempty l = true
                         /\ forall i, arg (2 + i) (f0 :: fs) = nth i l "").
  { destruct fs as [|f1 l]; simpl.
    - exists []. repeat split; auto. intros [|i]; reflexivity.
    - exists l. inversion Hall; subst. repeat split; auto.
      now apply inner_nonempty_tl in Hi. }
  destruct Hl as [l [-> [Htp [Hin Harg]]]].
  destruct (inner_nonempty_split l Hin) as [l' [Hne Hl]].
  assert (Hfilter : filter (fun a => negb (String.eqb a "")) l = l').
  { change (filter nonempty l = l').
    destruct Hl as [-> | ->].
    - now apply filter_nonempty_all.
    - rewrite filter_app, filter_nonempty_all by assumption.
      simpl. now rewrite app_nil_r. }
  rewrite Hfilter.
  assert (Hl'tp : Forall (fun f => tail_plain f = true /\ f <> "") l').
  { assert (Forall (fun g => tail_plain g = true) l') as Htp'.
    { destruct Hl as [-> | ->]; [assumption|].
      apply Forall_app in Htp. tauto. }
    rewrite Forall_forall in *. intros x Hx. split; [auto|].
    specialize (Hne x Hx). unfold nonempty in Hne.
    apply negb_true_iff, String.eqb_neq in Hne. exact Hne. }
  assert (Hnth : forall i, (i < List.length l')%nat ->
                           arg (2 + i) (f0 :: fs) = nth i l' "").
  { intros i Hi'. rewrite Harg. destruct Hl as [-> | ->]; [reflexivity|].
    now rewrite app_nth1. }
  destruct l' as [|a [|b [|c [|d [|e l']]]]]; try reflexivity.
  - change (Nat.eqb (List.length [a; b; c]) 3) with true. cbv iota.
    assert (H2 : arg 2 (f0 :: fs) = a) by (apply (Hnth 0%nat); simpl; lia).
    assert (H3 : arg 3 (f0 :: fs) = b) by (apply (Hnth 1%nat); simpl; lia).
    assert (H4 : arg 4 (f0 :: fs) = c) by (apply (Hnth 2%nat); simpl; lia).
    rewrite H2, H3, H4.
    replace (a +++ ":" +++ b +++ ":" +++ c +++ nl)
      with (join [a; b; c] +++ nl)
      by (cbn [join]; now rewrite !append_assoc).
    apply inert_stored; [simpl; lia|assumption].
  - change (Nat.eqb (List.length [a; b; c; d]) 3) with false.
    change (Nat.eqb (List.length [a; b; c; d]) 4) with true. cbv iota.
    assert (H2 : arg 2 (f0 :: fs) = a) by (apply (Hnth 0%nat); simpl; lia).
    assert (H3 : arg 3 (f0 :: fs) = b) by (apply (Hnth 1%nat); simpl; lia).
    assert (H4 : arg 4 (f0 :: fs) = c) by (apply (Hnth 2%nat); simpl; lia).
    assert (H5 : arg 5 (f0 :: fs) = d) by (apply (Hnth 3%nat); simpl; lia).
    rewrite H2, H3, H4, H5.
    replace (a +++ ":" +++ b +++ ":" +++ c +++ ":" +++ d +++ nl)
      with (join [a; b; c; d] +++ nl)
      by (cbn [join]; now rewrite !append_assoc).
    apply inert_stored; [simpl; lia|assumption].
Qed.

(** ** One line through the scanner *)

Lemma validate_input_unfold fuel line ti :
  validate_input (S fuel) line ti
  = match find_message (arg 0 (fill_args false line)) 0 messages with
    | Some i =>
        do_input (validate_input fuel) (fill_args false line) i
                 (scanned line ti)
    | None => Some (scanned line ti)
    end.
Proof. reflexivity. Qed.

Lemma find_message_spec (verb : string) :
  match find_message verb 0 messages with
  | Some i => nth_error messages i = Some verb
  | None => ~ In verb messages
  end.
Proof.
  unfold messages. simpl. rewrite !strcmp_eqb.
  repeat match goal with
         | |- context [String.eqb verb ?m] =>
             destruct (String.eqb_spec verb m) as [->|?]; [reflexivity|]
         end.
  simpl. intuition congruence.
Qed.

Lemma redispatched_app (a b : list Event) :
  redispatched (a ++ b) = redispatched a ++ redispatched b.
Proof.
  induction a as [|e a IH]; simpl; [reflexivity|].
  destruct e; simpl; now rewrite ?IH.
Qed.

Lemma quiet_same ti ti' :
  deferred ti' = deferred ti -> events ti' = events ti -> quiet ti ti'.
Proof.
  intros Hd He. split.
  - exists []. now rewrite app_nil_r.
  - exists []. now rewrite app_nil_r.
Qed.

Lemma quiet_connect a ti : quiet ti (connect_message a ti).
Proof.
  unfold connect_message. break_if; [|now apply quiet_same].
  split; simpl.
  - exists []. now rewrite app_nil_r.
  - eexists. split; reflexivity.
Qed.

Lemma quiet_im a ti : quiet ti (im_message a ti).
Proof. unfold im_message. break_if; now apply quiet_same. Qed.

Lemma quiet_deliver a ti : quiet ti (deliver_message a ti).
Proof. unfold deliver_message. break_if; now apply quiet_same. Qed.

Lemma quiet_withdraw a ti : quiet ti (withdraw_message a ti).
Proof. unfold withdraw_message. break_if; now apply quiet_same. Qed.

Lemma quiet_transfer a ti : quiet ti (transfer_message a ti).
Proof.
  unfold transfer_message. break_if; [|now apply quiet_same].
  pose proof (quiet_withdraw [""; arg 1 a; arg 2 a]
                (set_depot (set_numColons 2 (depot ti)) ti)) as [Hd He].
  split; simpl.
  - exact Hd.
  - destruct He as [new [He Hr]]. simpl in He. rewrite He.
    eexists. rewrite <- app_assoc. split; [reflexivity|].
    rewrite redispatched_app, Hr. reflexivity.
Qed.

Lemma quiet_defer a ti : quiet ti (defer_message a ti).
Proof.
  unfold defer_message. break_if; [|now apply quiet_same].
  split; simpl.
  - eexists. reflexivity.
  - exists []. now rewrite app_nil_r.
Qed.

(** Apart from [Defer] and [Execute] no verb touches the deferred list. *)
Lemma deferred_connect a ti : deferred (connect_message a ti) = deferred ti.
Proof. unfold connect_message. break_if; reflexivity. Qed.

Lemma deferred_im a ti : deferred (im_message a ti) = deferred ti.
Proof. unfold im_message. break_if; reflexivity. Qed.

Lemma deferred_deliver a ti : deferred (deliver_message a ti) = deferred ti.
Proof. unfold deliver_message. break_if; reflexivity. Qed.

Lemma deferred_withdraw a ti : deferred (withdraw_message a ti) = deferred ti.
Proof. unfold withdraw_message. break_if; reflexivity. Qed.

Lemma deferred_transfer a ti : deferred (transfer_message a ti) = deferred ti.
Proof.
  unfold transfer_message. break_if; [|reflexivity].
  simpl. now rewrite deferred_withdraw.
Qed.

Lemma defer_message_empty a ti :
  defer_creator a = "" -> defer_message a ti = ti.
Proof.
  intros H. unfold defer_message. rewrite H.
  destruct (strtol (arg 1 a)). simpl. now rewrite andb_false_r.
Qed.

(** ** The deferred list under [Execute] *)

Lemma marks_only_refl ds : marks_only ds ds.
Proof. induction ds; constructor; auto. Qed.

Lemma marks_only_trans a b c :
  marks_only a b -> marks_only b c -> marks_only a c.
Proof.
  intros H. revert c. induction H as [|x y a b [Hk [Ha Hc]] _ IH];
    intros c Hbc; inversion Hbc as [|? z ? c' [Hk' [Ha' Hc']] Hrest]; subst.
  - constructor.
  - constructor; [|now apply IH].
    repeat split; try congruence. auto.
Qed.

Lemma marks_only_pending ds ds' :
  marks_only ds ds' -> (pending ds' <= pending ds)%nat.
Proof.
  unfold pending.
  induction 1 as [|d d' ds ds' [_ [_ Hc]] _ IH]; simpl; [lia|].
  destruct (complete d) eqn:E.
  - rewrite Hc by reflexivity. simpl. exact IH.
  - destruct (complete d'); simpl; lia.
Qed.

Lemma marks_only_all_inert ds ds' :
  marks_only ds ds' -> all_inert ds = true -> all_inert ds' = true.
Proof.
  unfold all_inert.
  induction 1 as [|d d' ds ds' [_ [Ha _]] _ IH]; simpl; [auto|].
  intros H. apply andb_prop in H. destruct H as [H1 H2].
  rewrite Ha, H1. simpl. auto.
Qed.

Lemma collect_spec k i ds :
  collect k i ds = (batch k i ds, map (mark k) ds).
Proof.
  revert i. induction ds as [|d ds IH]; intros i; simpl; [reflexivity|].
  rewrite IH. unfold mark, picked.
  destruct ((k =? key d)%Z && Bool.eqb (complete d) false); reflexivity.
Qed.

Lemma marks_only_mark k ds : marks_only ds (map (mark k) ds).
Proof.
  induction ds as [|d ds IH]; simpl; constructor; [|assumption].
  unfold mark. destruct (picked k d); simpl; auto.
Qed.

Lemma pending_mark k i ds :
  (pending (map (mark k) ds) + List.length (batch k i ds) = pending ds)%nat.
Proof.
  unfold pending. revert i.
  induction ds as [|d ds IH]; intros i; simpl; [reflexivity|].
  specialize (IH (S i)).
  unfold mark, picked in *.
  destruct (k =? key d)%Z, (complete d) eqn:E; simpl; rewrite ?E; simpl; lia.
Qed.

Lemma batch_texts k i ds j text :
  In (j, text) (batch k i ds) -> exists d, In d ds /\ args d = text.
Proof.
  revert i. induction ds as [|d ds IH]; intros i; simpl; [contradiction|].
  destruct (picked k d).
  - intros [H|H].
    + inversion H; subst. eauto.
    + destruct (IH _ H) as [d' [? ?]]. eauto.
  - intros H. destruct (IH _ H) as [d' [? ?]]. eauto.
Qed.

Lemma mark_unpicked k ds : batch k 0 ds = [] -> map (mark k) ds = ds.
Proof.
  generalize 0%nat.
  induction ds as [|d ds IH]; intros i; simpl; [reflexivity|].
  unfold mark at 1. destruct (picked k d); [discriminate|].
  intros H. now rewrite (IH _ H).
Qed.

(** ** Termination of the mutual recursion *)

Lemma do_input_cases validate a msg ti :
  msg = 6%nat
  \/ do_input validate a msg ti = Some (connect_message a ti)
  \/ do_input validate a msg ti = Some (im_message a ti)
  \/ do_input validate a msg ti = Some (deliver_message a ti)
  \/ do_input validate a msg ti = Some (withdraw_message a ti)
  \/ do_input validate a msg ti = Some (transfer_message a ti)
  \/ (msg = 5%nat /\ do_input validate a msg ti = Some (defer_message a ti))
  \/ do_input validate a msg ti = Some ti.
Proof.
  do 7 (destruct msg as [|msg]; [simpl; tauto|]). simpl. tauto.
Qed.

Lemma run_all_total fuel :
  (forall text ti,
      inert text = true -> all_inert (deferred ti) = true ->
      (pending (deferred ti) < fuel)%nat ->
      exists ti', validate_input fuel text ti = Some ti'
                  /\ marks_only (deferred ti) (deferred ti')) ->
  forall toExec ti,
    (forall j text, In (j, text) toExec -> inert text = true) ->
    all_inert (deferred ti) = true ->
    (pending (deferred ti) < fuel)%nat ->
    exists ti', run_all (validate_input fuel) toExec ti = Some ti'
                /\ marks_only (deferred ti) (deferred ti').
Proof.
  intros Hval. induction toExec as [|[j text] rest IH]; intros ti Hin Hwf Hp.
  - exists ti. split; [reflexivity|apply marks_only_refl].
  - simpl.
    destruct (Hval text (emit (Redispatch j) ti)) as [ti1 [E1 M1]];
      [eapply Hin; now left|exact Hwf|exact Hp|].
    rewrite E1. simpl in M1.
    destruct (IH ti1) as [ti2 [E2 M2]].
    + intros j' t' H'. eapply Hin. right. exact H'.
    + eapply marks_only_all_inert; eauto.
    + pose proof (marks_only_pending _ _ M1). lia.
    + exists ti2. split; [exact E2|]. eapply marks_only_trans; eauto.
Qed.

Lemma all_inert_In ds d : all_inert ds = true -> In d ds -> inert (args d) = true.
Proof.
  unfold all_inert. rewrite forallb_forall. auto.
Qed.

(** With more fuel than there are entries not yet complete, every line is
    processed to the end.  A session keeps its stored commands inert, and
    an inert line leaves the deferred list as it is up to marking. *)
Lemma validate_input_total fuel :
  forall line ti,
    all_inert (deferred ti) = true ->
    (pending (deferred ti) < fuel)%nat ->
    exists ti', validate_input fuel line ti = Some ti'
                /\ all_inert (deferred ti') = true
                /\ (inert line = true ->
                    marks_only (deferred ti) (deferred ti')).
Proof.
  induction fuel as [|fuel IH]; intros line ti Hwf Hp; [lia|].
  rewrite validate_input_unfold.
  pose proof (find_message_spec (arg 0 (fill_args false line))) as Hfind.
  destruct (find_message (arg 0 (fill_args false line)) 0 messages)
    as [msg|].
  2:{ eexists. split; [reflexivity|]. split; [exact Hwf|].
      intros _. apply marks_only_refl. }
  set (a := fill_args false line) in *.
  set (ti0 := scanned line ti).
  assert (Hsame : forall t, deferred t = deferred ti ->
            all_inert (deferred t) = true
            /\ (inert line = true -> marks_only (deferred ti) (deferred t))).
  { intros t ->. split; [exact Hwf|]. intros _. apply marks_only_refl. }
  destruct (do_input_cases (validate_input fuel) a msg ti0)
    as [H|[H|[H|[H|[H|[H|[[Hm H]|H]]]]]]].
  - (* Execute *)
    subst msg. simpl. unfold execute_message.
    destruct (strtol (arg 1 a)) as [k ptr].
    destruct (String.eqb ptr "" && (0 <? k)%Z).
    2:{ eexists. split; [reflexivity|]. now apply Hsame. }
    rewrite collect_spec. simpl deferred.
    pose proof (pending_mark k 0 (deferred ti)) as Hpm.
    pose proof (marks_only_mark k (deferred ti)) as Hmm.
    destruct (batch k 0 (deferred ti)) as [|b bs] eqn:Eb.
    + simpl. eexists. split; [reflexivity|]. simpl.
      split; [eapply marks_only_all_inert; eauto|auto].
    + destruct (run_all_total fuel) with
        (toExec := b :: bs)
        (ti := set_deferred (map (mark k) (deferred ti)) ti0)
        as [ti' [E M]].
      * intros text t Hi Hw Hlt.
        destruct (IH text t Hw Hlt) as [t' [E' [_ M']]]. eauto.
      * intros j text Hj. rewrite <- Eb in Hj.
        apply batch_texts in Hj. destruct Hj as [d [Hd <-]].
        eapply all_inert_In; eauto.
      * simpl. eapply marks_only_all_inert; eauto.
      * simpl. simpl in Hpm. lia.
      * simpl in M. exists ti'. split; [exact E|].
        assert (marks_only (deferred ti) (deferred ti'))
          by (eapply marks_only_trans; eauto).
        split; [eapply marks_only_all_inert; eauto|auto].
  - rewrite H. eexists. split; [reflexivity|].
    apply Hsame. now rewrite deferred_connect.
  - rewrite H. eexists. split; [reflexivity|].
    apply Hsame. now rewrite deferred_im.
  - rewrite H. eexists. split; [reflexivity|].
    apply Hsame. now rewrite deferred_deliver.
  - rewrite H. eexists. split; [reflexivity|].
    apply Hsame. now rewrite deferred_withdraw.
  - rewrite H. eexists. split; [reflexivity|].
    apply Hsame. now rewrite deferred_transfer.
  - (* Defer *)
    rewrite H. eexists. split; [reflexivity|]. subst msg.
    simpl in Hfind. injection Hfind as Hverb.
    split.
    + unfold defer_message. break_if; try exact Hwf.
      simpl. unfold all_inert in *. rewrite forallb_app, Hwf. simpl.
      subst a. now rewrite defer_creator_inert.
    + intros Hi. unfold inert in Hi. fold a in Hi.
      rewrite <- Hverb in Hi. simpl in Hi.
      apply String.eqb_eq in Hi.
      rewrite (defer_message_empty _ _ Hi). apply marks_only_refl.
  - rewrite H. eexists. split; [reflexivity|]. now apply Hsame.
Qed.

(** More fuel does not change a result. *)
Lemma run_all_mono (v v' : string -> ThreadInfo -> option ThreadInfo) :
  (forall text t r, v text t = Some r -> v' text t = Some r) ->
  forall toExec t r, run_all v toExec t = Some r -> run_all v' toExec t = Some r.
Proof.
  intros Hv. induction toExec as [|[j text] rest IH]; intros t r; simpl;
    [auto|].
  destruct (v text (emit (Redispatch j) t)) as [t1|] eqn:E; [|discriminate].
  rewrite (Hv _ _ _ E). apply IH.
Qed.

Lemma validate_input_mono fuel :
  forall fuel' line ti r,
    (fuel <= fuel')%nat ->
    validate_input fuel line ti = Some r ->
    validate_input fuel' line ti = Some r.
Proof.
  induction fuel as [|fuel IH]; intros fuel' line ti r Hle H;
    [discriminate|].
  destruct fuel' as [|fuel']; [lia|].
  rewrite validate_input_unfold in *.
  destruct (find_message (arg 0 (fill_args false line)) 0 messages)
    as [msg|]; [|exact H].
  do 6 (destruct msg as [|msg]; [exact H|]).
  destruct msg as [|msg]; [|exact H].
  simpl in *. unfold execute_message in *.
  destruct (strtol _) as [k ptr]. destruct (_ && _); [|exact H].
  destruct (collect _ _ _) as [toExec ds].
  eapply run_all_mono; [|exact H].
  intros text t r' Hr. apply IH; [lia|exact Hr].
Qed.

(** ** Which stored commands are re-dispatched *)

Lemma complete_at_app i ds extra :
  complete_at i ds -> complete_at i (ds ++ extra).
Proof.
  intros [d [Hn Hc]]. exists d. split; [|exact Hc].
  rewrite nth_error_app1; [exact Hn|].
  apply nth_error_Some. congruence.
Qed.

Lemma complete_at_marks i ds ds' :
  marks_only ds ds' -> complete_at i ds -> complete_at i ds'.
Proof.
  intros H. revert i.
  induction H as [|d d' ds ds' [_ [_ Hc]] _ IH]; intros i [x [Hn Hx]].
  - destruct i; discriminate.
  - destruct i as [|i]; simpl in *.
    + injection Hn as <-. exists d'. auto.
    + apply IH. exists x. auto.
Qed.

Lemma batch_index k i ds j :
  In j (map fst (batch k i ds)) ->
  (i <= j)%nat
  /\ exists d, nth_error ds (j - i) = Some d /\ picked k d = true.
Proof.
  revert i. induction ds as [|d ds IH]; intros i; simpl; [contradiction|].
  intros H.
  assert (Hrest : In j (map fst (batch k (S i) ds)) ->
                  (i <= j)%nat
                  /\ exists d0, nth_error (d :: ds) (j - i) = Some d0
                                /\ picked k d0 = true).
  { intros H'. destruct (IH _ H') as [Hle [d0 [Hn Hp]]].
    split; [lia|]. exists d0. split; [|exact Hp].
    replace (j - i)%nat with (S (j - S i)) by lia. exact Hn. }
  destruct (picked k d) eqn:E; [|now apply Hrest].
  destruct H as [H|H]; [|now apply Hrest].
  simpl in H. subst j. split; [lia|]. exists d.
  rewrite Nat.sub_diag. auto.
Qed.

Lemma batch_NoDup k i ds : NoDup (map fst (batch k i ds)).
Proof.
  revert i. induction ds as [|d ds IH]; intros i; simpl; [constructor|].
  destruct (picked k d); [|apply IH].
  simpl. constructor; [|apply IH].
  intros H. apply batch_index in H. lia.
Qed.

Lemma batch_not_complete k ds j :
  In j (map fst (batch k 0 ds)) -> ~ complete_at j ds.
Proof.
  intros H [d [Hn Hc]]. apply batch_index in H.
  destruct H as [_ [d' [Hn' Hp]]]. rewrite Nat.sub_0_r in Hn'.
  assert (d' = d) by congruence. subst d'.
  unfold picked in Hp. rewrite Hc in Hp. simpl in Hp.
  now rewrite andb_false_r in Hp.
Qed.

Lemma batch_marked k ds j :
  In j (map fst (batch k 0 ds)) -> complete_at j (map (mark k) ds).
Proof.
  intros H. apply batch_index in H.
  destruct H as [_ [d [Hn Hp]]]. rewrite Nat.sub_0_r in Hn.
  exists (mark k d). split.
  - rewrite nth_error_map, Hn. reflexivity.
  - unfold mark. now rewrite Hp.
Qed.

Lemma quiet_fresh prot ti ti' :
  quiet ti ti' -> protected prot (deferred ti) -> fresh prot ti ti'.
Proof.
  intros [[extra Hd] [new [He Hr]]] Hp. split.
  - intros i Hi. rewrite Hd. apply complete_at_app. auto.
  - exists new. rewrite Hr. repeat split; auto; try constructor.
    all: contradiction.
Qed.

Lemma run_all_fresh (v : string -> ThreadInfo -> option ThreadInfo) :
  (forall text t t' prot,
      v text t = Some t' -> protected prot (deferred t) -> fresh prot t t') ->
  forall toExec ti ti' prot,
    run_all v toExec ti = Some ti' ->
    NoDup (map fst toExec) ->
    (forall i, In i (map fst toExec) -> ~ In i prot) ->
    protected (prot ++ map fst toExec) (deferred ti) ->
    protected (prot ++ map fst toExec) (deferred ti')
    /\ exists new,
        events ti' = events ti ++ new
        /\ NoDup (redispatched new)
        /\ (forall i, In i (redispatched new) ->
                      ~ In i prot /\ complete_at i (deferred ti'))
        /\ incl (map fst toExec) (redispatched new).
Proof.
  intros Hv. induction toExec as [|[j text] rest IH];
    intros ti ti' prot Hrun Hnd Hdis Hprot.
  - injection Hrun as <-. split; [exact Hprot|].
    exists []. rewrite app_nil_r. simpl.
    repeat split; try constructor; try contradiction.
    intros x [].
  - simpl in Hrun, Hnd, Hdis, Hprot.
    destruct (v text (emit (Redispatch j) ti)) as [t1|] eqn:E1;
      [|discriminate].
    inversion Hnd as [|? ? Hj Hnd']; subst.
    destruct (Hv _ _ _ (prot ++ j :: map fst rest) E1 Hprot)
      as [Hp1 [new1 [He1 [Hn1 Hf1]]]].
    simpl in He1.
    set (r1 := redispatched new1) in *.
    destruct (IH t1 ti' (prot ++ j :: r1) Hrun Hnd') as
      [Hp2 [new2 [He2 [Hn2 [Hf2 Hi2]]]]].
    + intros i Hi Hin. apply in_app_or in Hin.
      destruct Hin as [Hin|[->|Hin]].
      * eapply Hdis; eauto.
      * contradiction.
      * destruct (Hf1 _ Hin) as [Hno _]. apply Hno.
        apply in_or_app. right. now right.
    + intros i Hi. rewrite <- app_assoc in Hi. apply in_app_or in Hi.
      destruct Hi as [Hi|Hi].
      * apply Hp1. apply in_or_app. now left.
      * simpl in Hi. destruct Hi as [->|Hi].
        { apply Hp1. apply in_or_app. right. now left. }
        apply in_app_or in Hi. destruct Hi as [Hi|Hi].
        { now apply Hf1. }
        apply Hp1. apply in_or_app. right. now right.
    + set (r2 := redispatched new2) in *.
      assert (Hall : protected (prot ++ j :: r1) (deferred ti')).
      { intros i Hi. apply Hp2. apply in_or_app. now left. }
      split.
      * intros i Hi. apply Hp2. apply in_app_or in Hi. simpl in Hi.
        apply in_or_app. destruct Hi as [Hi|[->|Hi]].
        -- left. apply in_or_app. now left.
        -- left. apply in_or_app. right. now left.
        -- now right.
      * exists (Redispatch j :: new1 ++ new2).
        split; [rewrite He2, He1, <- !app_assoc; reflexivity|].
        simpl. rewrite redispatched_app. fold r1 r2.
        split; [|split].
        -- constructor.
           ++ intros Hin. apply in_app_or in Hin. destruct Hin as [Hin|Hin].
              ** destruct (Hf1 _ Hin) as [Hno _]. apply Hno.
                 apply in_or_app. right. now left.
              ** destruct (Hf2 _ Hin) as [Hno _]. apply Hno.
                 apply in_or_app. right. now left.
           ++ apply NoDup_app; [assumption|assumption|].
              intros x Hx1 Hx2. destruct (Hf2 _ Hx2) as [Hno _].
              apply Hno. apply in_or_app. right. now right.
        -- intros i [<-|Hi].
           ++ split; [apply Hdis; now left|].
              apply Hall. apply in_or_app. right. now left.
           ++ apply in_app_or in Hi. destruct Hi as [Hi|Hi].
              ** split.
                 --- destruct (Hf1 _ Hi) as [Hno _]. intros Hin. apply Hno.
                     apply in_or_app. now left.
                 --- apply Hall. apply in_or_app. right. now right.
              ** destruct (Hf2 _ Hi) as [Hno Hc]. split; [|exact Hc].
                 intros Hin. apply Hno. apply in_or_app. now left.
        -- intros x [<-|Hx]; [now left|].
           right. apply in_or_app. right. now apply Hi2.
Qed.

(** However a line is processed, no stored command is re-dispatched
    twice, and none that was already complete is re-dispatched at all. *)
Lemma validate_input_fresh fuel :
  forall line ti ti' prot,
    validate_input fuel line ti = Some ti' ->
    protected prot (deferred ti) ->
    fresh prot ti ti'.
Proof.
  induction fuel as [|fuel IH]; intros line ti ti' prot H Hprot;
    [discriminate|].
  rewrite validate_input_unfold in H.
  assert (Hq : forall t, Some t = Some ti' -> quiet (scanned line ti) t ->
                         fresh prot ti ti').
  { intros t Ht Hqt. injection Ht as <-.
    apply (quiet_fresh prot (scanned line ti) t Hqt Hprot). }
  destruct (find_message (arg 0 (fill_args false line)) 0 messages)
    as [msg|].
  2:{ eapply Hq; [exact H|]. now apply quiet_same. }
  set (a := fill_args false line) in *.
  destruct (do_input_cases (validate_input fuel) a msg (scanned line ti))
    as [Hm|[Hm|[Hm|[Hm|[Hm|[Hm|[[_ Hm]|Hm]]]]]]].
  - subst msg. simpl in H. unfold execute_message in H.
    destruct (strtol (arg 1 a)) as [k ptr].
    destruct (String.eqb ptr "" && (0 <? k)%Z).
    2:{ eapply Hq; [exact H|]. now apply quiet_same. }
    rewrite collect_spec in H. simpl deferred in H.
    destruct (run_all_fresh (validate_input fuel) IH _ _ _ prot H)
      as [Hp [new [He [Hn [Hf _]]]]].
    + apply batch_NoDup.
    + intros i Hi Hin. eapply batch_not_complete; eauto.
    + simpl. intros i Hi. apply in_app_or in Hi. destruct Hi as [Hi|Hi].
      * eapply complete_at_marks; [apply marks_only_mark|auto].
      * now apply batch_marked.
    + split.
      * intros i Hi. apply Hp. apply in_or_app. now left.
      * exists new. auto.
  - rewrite Hm in H. eapply Hq; [exact H|apply quiet_connect].
  - rewrite Hm in H. eapply Hq; [exact H|apply quiet_im].
  - rewrite Hm in H. eapply Hq; [exact H|apply quiet_deliver].
  - rewrite Hm in H. eapply Hq; [exact H|apply quiet_withdraw].
  - rewrite Hm in H. eapply Hq; [exact H|apply quiet_transfer].
  - rewrite Hm in H. eapply Hq; [exact H|apply quiet_defer].
  - rewrite Hm in H. eapply Hq; [exact H|]. now apply quiet_same.
Qed.

(** ** Invariants of a session *)

Section Invariant.

Variable P : ThreadInfo -> Prop.

Hypothesis P_scanned : forall line ti, P ti -> P (scanned line ti).
Hypothesis P_connect : forall a ti, P ti -> P (connect_message a ti).
Hypothesis P_im : forall a ti, P ti -> P (im_message a ti).
Hypothesis P_deliver : forall a ti, P ti -> P (deliver_message a ti).
Hypothesis P_withdraw : forall a ti, P ti -> P (withdraw_message a ti).
Hypothesis P_transfer : forall a ti, P ti -> P (transfer_message a ti).
Hypothesis P_defer : forall a ti, P ti -> P (defer_message a ti).
Hypothesis P_marked : forall k ti,
    P ti -> P (set_deferred (map (mark k) (deferred ti)) ti).
Hypothesis P_redispatch : forall i ti, P ti -> P (emit (Redispatch i) ti).
Hypothesis P_msgCount : forall n ti, P ti -> P (set_msgCount n ti).

Lemma run_all_invariant (v : string -> ThreadInfo -> option ThreadInfo) :
  (forall text t t', v text t = Some t' -> P t -> P t') ->
  forall toExec ti ti',
    run_all v toExec ti = Some ti' -> P ti -> P ti'.
Proof.
  intros Hv. induction toExec as [|[j text] rest IH]; intros ti ti' H Hp.
  - now injection H as <-.
  - simpl in H.
    destruct (v text (emit (Redispatch j) ti)) as [t1|] eqn:E;
      [|discriminate].
    eapply IH; [exact H|]. eapply Hv; [exact E|]. now apply P_redispatch.
Qed.

Lemma validate_input_invariant fuel :
  forall line ti ti',
    validate_input fuel line ti = Some ti' -> P ti -> P ti'.
Proof.
  induction fuel as [|fuel IH]; intros line ti ti' H Hp; [discriminate|].
  rewrite validate_input_unfold in H.
  pose proof (P_scanned line ti Hp) as Hs.
  destruct (find_message (arg 0 (fill_args false line)) 0 messages)
    as [msg|]; [|now injection H as <-].
  set (a := fill_args false line) in *.
  destruct (do_input_cases (validate_input fuel) a msg (scanned line ti))
    as [Hm|[Hm|[Hm|[Hm|[Hm|[Hm|[[_ Hm]|Hm]]]]]]];
    try (rewrite Hm in H; injection H as <-; auto).
  subst msg. simpl in H. unfold execute_message in H.
  destruct (strtol (arg 1 a)) as [k ptr].
  destruct (String.eqb ptr "" && (0 <? k)%Z); [|now injection H as <-].
  rewrite collect_spec in H.
  eapply run_all_invariant; [exact IH|exact H|].
  now apply P_marked.
Qed.

Lemma session_loop_invariant fuel :
  forall lines ti ti' rest,
    session_loop fuel lines ti = Some (ti', rest) -> P ti -> P ti'.
Proof.
  induction lines as [|line lines IH]; intros ti ti' rest H Hp.
  - now injection H as <- _.
  - simpl in H. destruct (_ && _); [now injection H as <- _|].
    destruct (validate_input fuel line ti) as [t1|] eqn:E; [|discriminate].
    eapply IH; [exact H|]. apply P_msgCount.
    eapply validate_input_invariant; eauto.
Qed.

End Invariant.

(** The resources change only through the loop of [deliver_message] and
    [withdraw_message]. *)
Lemma deliver_message_resources a ti :
  resources (depot (deliver_message a ti)) = resources (depot ti)
  \/ resources (depot (deliver_message a ti))
     = adjust (verify_name (arg 2 a))
              (fun x => to_int (x + verify_num (arg 1 a)))
              (verify_num (arg 1 a)) (resources (depot ti)).
Proof.
  unfold deliver_message, adjust.
  destruct (_ && _); [|now left]. right.
  destruct (update_first _ _ _ _) as [rs d]. reflexivity.
Qed.

Lemma withdraw_message_resources a ti :
  resources (depot (withdraw_message a ti)) = resources (depot ti)
  \/ resources (depot (withdraw_message a ti))
     = adjust (verify_name (arg 2 a))
              (fun x => to_int (x - verify_num (arg 1 a)))
              (to_int (0 - verify_num (arg 1 a))) (resources (depot ti)).
Proof.
  unfold withdraw_message, adjust.
  destruct (_ && _); [|now left]. right.
  destruct (update_first _ _ _ _) as [rs d]. reflexivity.
Qed.

Lemma inventory_ok_deliver a ti :
  inventory_ok ti -> inventory_ok (deliver_message a ti).
Proof.
  unfold inventory_ok. intros H.
  destruct (deliver_message_resources a ti) as [-> | ->];
    [exact H|now apply adjust_one_entry].
Qed.

Lemma inventory_ok_withdraw a ti :
  inventory_ok ti -> inventory_ok (withdraw_message a ti).
Proof.
  unfold inventory_ok. intros H.
  destruct (withdraw_message_resources a ti) as [-> | ->];
    [exact H|now apply adjust_one_entry].
Qed.

Lemma inventory_ok_transfer a ti :
  inventory_ok ti -> inventory_ok (transfer_message a ti).
Proof.
  unfold transfer_message. intros H. break_if; [|exact H].
  unfold inventory_ok. simpl.
  apply (inventory_ok_withdraw _ (set_depot (set_numColons 2 (depot ti)) ti)).
  exact H.
Qed.

(** One entry per good is an invariant of every line, whatever its verb. *)
Lemma validate_input_inventory_ok fuel line ti ti' :
  validate_input fuel line ti = Some ti' -> inventory_ok ti -> inventory_ok ti'.
Proof.
  apply (validate_input_invariant inventory_ok); auto.
  - intros a t H. unfold connect_message. break_if; exact H.
  - intros a t H. unfold im_message. break_if; exact H.
  - apply inventory_ok_deliver.
  - apply inventory_ok_withdraw.
  - apply inventory_ok_transfer.
  - intros a t H. unfold defer_message. break_if; exact H.
Qed.

(** ** C1 and C2: start-up and the inventory *)

Lemma gather_resources_names :
  forall l loot, gather_resources l = Ret loot -> names loot = paired_goods l.
Proof.
  fix IH 1. intros [|good [|qty rest]] loot H.
  - now injection H as <-.
  - simpl in H. destruct (is_name_valid good); [|discriminate].
    now injection H as <-.
  - simpl in H. unfold is_name_valid in H at 1.
    destruct (String.eqb good ""); [discriminate|].
    destruct (has_invalid_char good); [discriminate|]. simpl in H.
    destruct (is_amount_valid qty) as [a|]; [|discriminate]. simpl in H.
    destruct (gather_resources rest) as [loot'|] eqn:E; [|discriminate].
    simpl in H. injection H as <-. simpl. f_equal. now apply IH.
Qed.

(** A quantity that [is_amount_valid] lets through is an integer read to
    the end of the argument and greater than zero. *)
Lemma is_amount_valid_Ret (amount : string) (v : Z) :
  is_amount_valid amount = Ret v ->
  snd (strtol amount) = "" /\ 0 < fst (strtol amount)
  /\ v = to_int (fst (strtol amount)).
Proof.
  unfold is_amount_valid, atoi.
  destruct (strtol amount) as [output ptr]. simpl.
  destruct (to_int output =? 0)%Z eqn:E0; simpl; [discriminate|].
  destruct (0 <=? output)%Z eqn:E1; simpl; [|discriminate].
  destruct (String.eqb_spec ptr ""); simpl; [|discriminate].
  intros H. injection H as <-.
  apply Z.eqb_neq in E0. apply Z.leb_le in E1.
  repeat split; auto.
  assert (output <> 0) by (intros ->; now apply E0). lia.
Qed.

(** C1: at start-up a quantity of exactly zero is refused: [atoi] of it is
    0, which the test in [is_amount_valid] reads as not a number, and the
    process exits with code 3 instead of recording the good. *)
Theorem C1_zero_quantity_exits (port : Z) :
  is_amount_valid "0" = Exit 3
  /\ main port ["2310depot"; "alpha"; "widget"; "5"; "sprocket"; "0"]
     = Exit 3.
Proof. split; reflexivity. Qed.

Lemma scanned_join (fields : list string) ti :
  fields <> [] -> Forall field_ok fields ->
  fill_args false (join fields) = fields
  /\ numColons (depot (scanned (join fields) ti))
     = Z.of_nat (List.length fields) - 1.
Proof.
  intros Hne Hall. unfold scanned. simpl.
  rewrite fill_args_join by assumption. now split.
Qed.

Lemma validate_input_join fuel verb fields msg ti :
  find_message verb 0 messages = Some msg ->
  Forall field_ok (verb :: fields) ->
  validate_input (S fuel) (join (verb :: fields)) ti
  = do_input (validate_input fuel) (verb :: fields) msg
             (scanned (join (verb :: fields)) ti).
Proof.
  intros Hm Hall. rewrite validate_input_unfold.
  rewrite fill_args_join by (auto; discriminate).
  change (arg 0 (verb :: fields)) with verb. now rewrite Hm.
Qed.








(** ** C3: what [Defer] stores *)


Lemma strtol_value_nonempty (s : string) (k : Z) (ptr : string) :
  strtol s = (k, ptr) -> 0 < k -> s <> "".
Proof. intros H Hk ->. cbv in H. injection H as <- _. lia. Qed.






(** ** C4: which verbs look at the colon count *)








(** ** C5: an [IM] that is already registered *)

Lemma neighbour_found_true name portNo ns :
  neighbour_found name portNo ns true = true.
Proof.
  induction ns as [|n ns IH]; simpl; [reflexivity|]. now break_if.
Qed.






(** ** C7 and C8: the arithmetic of [Deliver] and [Withdraw] *)




Lemma adjust_absent good update fresh rs :
  has_entry good rs = false ->
  adjust good update fresh rs = rs ++ [mkResource good fresh].
Proof.
  intros E. unfold adjust.
  pose proof (update_first_flag good update rs false) as Hf.
  assert (Hrs : fst (update_first good update rs false) = rs).
  { clear Hf. induction rs as [|r rs IH]; [reflexivity|].
    unfold has_entry in E. simpl in E. apply orb_false_elim in E.
    destruct E as [E1 E2]. simpl. rewrite strcmp_eqb, E1. simpl.
    specialize (IH E2). destruct (update_first good update rs false).
    simpl in *. now rewrite IH. }
  destruct (update_first good update rs false) as [rs' d]. simpl in *.
  subst. now rewrite E.
Qed.

Lemma names_adjust_present good update fresh rs :
  has_entry good rs = true ->
  names (adjust good update fresh rs) = names rs.
Proof.
  intros E. unfold adjust.
  pose proof (update_first_flag good update rs false) as Hf.
  pose proof (update_first_names good update rs false) as Hn.
  destruct (update_first good update rs false) as [rs' d]. simpl in *.
  subst d. now rewrite E.
Qed.










(** ** C9: the snapshot *)

Lemma print_goods_filter rs :
  print_goods rs = map goods_line (filter nonzero rs).
Proof.
  induction rs as [|r rs IH]; simpl; [reflexivity|].
  unfold nonzero at 1. destruct (negb (amount r =? 0)%Z); simpl;
    now rewrite IH.
Qed.

Lemma compare_not_Gt_trans (a b c : string) :
  String.compare a b <> Gt -> String.compare b c <> Gt ->
  String.compare a c <> Gt.
Proof.
  revert b c. induction a as [|x a IH]; intros [|y b] [|z c]; simpl;
    try congruence.
  unfold Ascii.compare.
  destruct (N.compare_spec (N_of_ascii x) (N_of_ascii y)) as [E1|E1|E1];
    destruct (N.compare_spec (N_of_ascii y) (N_of_ascii z)) as [E2|E2|E2];
    destruct (N.compare_spec (N_of_ascii x) (N_of_ascii z)) as [E3|E3|E3];
    try congruence; try lia.
  apply IH.
Qed.

Lemma strcmp_le (a b : string) : strcmp a b <= 0 <-> String.compare a b <> Gt.
Proof.
  unfold strcmp. destruct (String.compare a b); split; intros H;
    try lia; try discriminate; congruence.
Qed.

Lemma strcmp_total (a b : string) : strcmp a b <= 0 \/ strcmp b a <= 0.
Proof.
  rewrite !strcmp_le, (String.compare_antisym b a).
  destruct (String.compare a b); simpl; [left|left|right]; discriminate.
Qed.

Lemma strcmp_trans (a b c : string) :
  strcmp a b <= 0 -> strcmp b c <= 0 -> strcmp a c <= 0.
Proof. rewrite !strcmp_le. apply compare_not_Gt_trans. Qed.

Lemma Permutation_filter_same {A : Type} (f : A -> bool) (l l' : list A) :
  Permutation l l' -> Permutation (filter f l) (filter f l').
Proof.
  induction 1 as [|x l l' _ IH|x y l|l l' l'' _ IH1 _ IH2]; simpl.
  - constructor.
  - destruct (f x); [now constructor|assumption].
  - destruct (f x), (f y); try reflexivity. apply perm_swap.
  - now transitivity (filter f l').
Qed.

Lemma StronglySorted_filter {A : Type} (R : A -> A -> Prop)
    (f : A -> bool) (l : list A) :
  StronglySorted R l -> StronglySorted R (filter f l).
Proof.
  induction 1 as [|x l Hs IH Hall]; simpl; [constructor|].
  destruct (f x); [|assumption].
  constructor; [assumption|].
  rewrite Forall_forall in *. intros y Hy. apply filter_In in Hy.
  apply Hall. tauto.
Qed.

Lemma insert_sorted_perm {A : Type} (cmp : A -> A -> Z) x l :
  Permutation (insert_sorted cmp x l) (x :: l).
Proof.
  induction l as [|y l IH]; simpl; [reflexivity|].
  destruct (cmp x y <=? 0)%Z; [reflexivity|].
  rewrite IH. apply perm_swap.
Qed.

Lemma insertion_sort_perm (A : Type) (cmp : A -> A -> Z) (l : list A) :
  Permutation (insertion_sort A cmp l) l.
Proof.
  induction l as [|x l IH]; simpl; [constructor|].
  rewrite insert_sorted_perm. now constructor.
Qed.

Lemma insertion_sort_sorted (A : Type) (cmp : A -> A -> Z) (l : list A) :
  (forall a b, cmp a b <= 0 \/ cmp b a <= 0) ->
  (forall a b c, cmp a b <= 0 -> cmp b c <= 0 -> cmp a c <= 0) ->
  StronglySorted (fun a b => cmp a b <= 0) (insertion_sort A cmp l).
Proof.
  intros Htot Htrans.
  induction l as [|x l IH]; simpl; [constructor|].
  set (s := insertion_sort A cmp l) in *. clearbody s.
  induction IH as [|y s Hs IHs Hall]; simpl.
  - constructor; constructor.
  - destruct (Z.leb_spec (cmp x y) 0) as [Hle|Hgt].
    + constructor; [now constructor|].
      constructor; [exact Hle|].
      rewrite Forall_forall in *. intros z Hz. eauto.
    + constructor; [exact IHs|].
      rewrite Forall_forall in *. intros z Hz.
      apply (Permutation_in _ (insert_sorted_perm cmp x s)) in Hz.
      destruct Hz as [<-|Hz]; [|auto].
      destruct (Htot x y); [lia|assumption].
Qed.

Section Snapshot.

(** What the program relies on is the contract of [qsort]: the result is a
    rearrangement of the array, in order for a comparison that is total
    and transitive. *)
Variable qsort : forall A : Type, (A -> A -> Z) -> list A -> list A.

Hypothesis qsort_perm :
  forall A cmp l, Permutation (qsort A cmp l) l.

Hypothesis qsort_sorted :
  forall A (cmp : A -> A -> Z) l,
    (forall a b, cmp a b <= 0 \/ cmp b a <= 0) ->
    (forall a b c, cmp a b <= 0 -> cmp b c <= 0 -> cmp a c <= 0) ->
    StronglySorted (fun a b => cmp a b <= 0) (qsort A cmp l).

(** C9: a snapshot is the line [Goods:], one line [<good> <qty>] for
    every entry whose amount is not zero, in ascending order of the good
    names, the line [Neighbours:], and one line for every neighbour name,
    in ascending order. *)
Theorem C9_snapshot_sorted_nonzero (d : Depot) :
  exists goods neigh,
    fst (sigcatcher qsort d)
    = ("Goods:" +++ nl) :: map goods_line goods
        ++ ("Neighbours:" +++ nl) :: map neighbour_line neigh
    /\ Permutation goods (filter nonzero (resources d))
    /\ StronglySorted
         (fun a b => strcmp (resource a) (resource b) <= 0) goods
    /\ Forall (fun r => amount r <> 0) goods
    /\ Permutation neigh (neighbours d)
    /\ StronglySorted (fun a b => strcmp (n_name a) (n_name b) <= 0) neigh.
Proof.
  exists (filter nonzero (qsort Resource lexo_cmp (resources d))),
         (qsort Neighbour neigh_cmp (neighbours d)).
  split; [|split; [|split; [|split; [|split]]]].
  - unfold sigcatcher. simpl. now rewrite print_goods_filter.
  - apply Permutation_filter_same, qsort_perm.
  - apply StronglySorted_filter.
    apply (qsort_sorted Resource lexo_cmp).
    + intros a b. apply strcmp_total.
    + intros a b c. apply strcmp_trans.
  - apply Forall_forall. intros r Hr. apply filter_In in Hr.
    destruct Hr as [_ Hr]. unfold nonzero in Hr.
    apply negb_true_iff in Hr. now apply Z.eqb_neq.
  - apply qsort_perm.
  - apply (qsort_sorted Neighbour neigh_cmp).
    + intros a b. apply strcmp_total.
    + intros a b c. apply strcmp_trans.
Qed.

End Snapshot.

Lemma C9_snapshot_sorted_nonzero_witness :
  let d := mkDepot 0 4000 "alpha"
             [mkResource "widget" 5; mkResource "sprocket" 0;
              mkResource "bolt" (-2)]
             [mkNeighbour "gamma" 9998 3 4; mkNeighbour "beta" 9999 7 8] in
  fst (sigcatcher insertion_sort d)
  = ["Goods:" +++ nl; "bolt -2" +++ nl; "widget 5" +++ nl;
     "Neighbours:" +++ nl; "beta" +++ nl; "gamma" +++ nl]
  /\ exists goods neigh,
      fst (sigcatcher insertion_sort d)
      = ("Goods:" +++ nl) :: map goods_line goods
          ++ ("Neighbours:" +++ nl) :: map neighbour_line neigh
      /\ Permutation goods (filter nonzero (resources d))
      /\ StronglySorted
           (fun a b => strcmp (resource a) (resource b) <= 0) goods
      /\ Forall (fun r => amount r <> 0) goods
      /\ Permutation neigh (neighbours d)
      /\ StronglySorted
           (fun a b => strcmp (n_name a) (n_name b) <= 0) neigh.
Proof.
  intros d. split; [reflexivity|].
  apply (C9_snapshot_sorted_nonzero insertion_sort
           insertion_sort_perm insertion_sort_sorted d).
Defined.

(** ** C6 and C10: [Execute] *)


Lemma marked_all_complete k ds d :
  In d (map (mark k) ds) -> key d = k -> complete d = true.
Proof.
  intros Hin Hk. apply in_map_iff in Hin. destruct Hin as [d0 [<- _]].
  unfold mark, picked in *.
  destruct (k =? key d0)%Z eqn:E; simpl in *.
  - destruct (complete d0) eqn:C; simpl; [exact C|reflexivity].
  - apply Z.eqb_neq in E. congruence.
Qed.


Lemma all_complete_batch k i ds :
  (forall d, In d ds -> key d = k -> complete d = true) ->
  batch k i ds = [].
Proof.
  revert i. induction ds as [|d ds IH]; intros i Hall; simpl; [reflexivity|].
  assert (picked k d = false) as ->.
  { unfold picked. destruct (Z.eqb_spec k (key d)) as [E|E]; [|reflexivity].
    rewrite (Hall d); [reflexivity|now left|congruence]. }
  apply IH. intros d0 H0. apply Hall. now right.
Qed.

Lemma execute_line fuel ks k ti :
  strtol ks = (k, "") -> 0 < k -> plain ks = true ->
  validate_input (S fuel) (join ["Execute"; ks]) ti
  = run_all (validate_input fuel) (batch k 0 (deferred ti))
            (set_deferred (map (mark k) (deferred ti))
                          (scanned (join ["Execute"; ks]) ti)).
Proof.
  intros Hk Hpos Hp.
  rewrite (validate_input_join fuel "Execute" [ks] 6); [|reflexivity|].
  2:{ constructor; [split; [reflexivity|discriminate]|].
      constructor; [|constructor]. split; [exact Hp|].
      eapply strtol_value_nonempty; eauto. }
  cbn [do_input]. unfold execute_message.
  change (arg 1 ["Execute"; ks]) with ks. rewrite Hk.
  apply Z.ltb_lt in Hpos. rewrite Hpos. simpl andb. cbv iota.
  now rewrite collect_spec.
Qed.

Lemma all_inert_preserved fuel line ti ti' :
  validate_input fuel line ti = Some ti' ->
  all_inert (deferred ti) = true -> all_inert (deferred ti') = true.
Proof.
  intros H Hwf.
  set (big := Nat.max fuel (S (pending (deferred ti)))).
  destruct (validate_input_total big line ti Hwf) as [r [Hr [Hi _]]];
    [unfold big; lia|].
  rewrite (validate_input_mono fuel big line ti ti') in Hr;
    [|unfold big; lia|exact H].
  now injection Hr as <-.
Qed.

(** Every state of a session has only inert stored commands. *)
Lemma session_all_inert fuel :
  forall lines ti ti' rest,
    session_loop fuel lines ti = Some (ti', rest) ->
    all_inert (deferred ti) = true -> all_inert (deferred ti') = true.
Proof.
  induction lines as [|line lines IH]; intros ti ti' rest H Hwf.
  - now injection H as <- _.
  - simpl in H. destruct (_ && _); [now injection H as <- _|].
    destruct (validate_input fuel line ti) as [t1|] eqn:E; [|discriminate].
    eapply IH; [exact H|]. simpl. eapply all_inert_preserved; eauto.
Qed.

Lemma client_connections_all_inert fuel ti to from lines ti' rest :
  client_connections fuel ti to from lines = Some (ti', rest) ->
  all_inert (deferred ti') = true.
Proof.
  unfold client_connections. intros H.
  eapply session_all_inert; [exact H|reflexivity].
Qed.




(** The spec's scenario 4 on the model: two commands deferred under key 7,
    executed once; a second [Execute:7] re-dispatches nothing. *)
Example scenario_defer_execute :
  let d := mkDepot 0 4000 "alpha" [] [] in
  let ti := mkThreadInfo d [] 0 0 0 0 false false [] in
  exists ti',
    client_connections 3 ti 1 2
      ["IM:9999:beta"; "Defer:7:Deliver:2:bolt"; "Defer:7:Withdraw:1:bolt";
       "Execute:7"; "Execute:7"]
    = Some (ti', [])
    /\ resources (depot ti') = [mkResource "bolt" 1]
    /\ redispatched (events ti') = [0%nat; 1%nat]
    /\ map complete (deferred ti') = [true; true].
Proof.
  eexists. split; [vm_compute; reflexivity|].
  repeat split; reflexivity.
Qed.

(** C10: one [Execute:k] first marks every entry of its batch complete
    and only then re-dispatches the batch; whatever the re-dispatched
    commands do, further [Execute]s included, every entry of the batch is
    re-dispatched exactly once and no stored command twice. *)
Theorem C10_batch_marked_before_dispatch
    (fuel : nat) (ti : ThreadInfo) (ks : string) (k : Z) :
  strtol ks = (k, "") -> 0 < k -> plain ks = true ->
  all_inert (deferred ti) = true ->
  (pending (deferred ti) < fuel)%nat ->
  let line := join ["Execute"; ks] in
  let marked := map (mark k) (deferred ti) in
  let toExec := batch k 0 (deferred ti) in
  (forall d, In d marked -> key d = k -> complete d = true)
  /\ validate_input (S fuel) line ti
     = run_all (validate_input fuel) toExec
               (set_deferred marked (scanned line ti))
  /\ exists ti1 new,
      validate_input (S fuel) line ti = Some ti1
      /\ events ti1 = events ti ++ new
      /\ NoDup (redispatched new)
      /\ (forall i, In i (map fst toExec) ->
                    count_occ Nat.eq_dec (redispatched new) i = 1%nat)
      /\ (forall i, In i (redispatched new) ->
                    complete_at i (deferred ti1)).
Proof.
  intros Hk Hpos Hp Hwf Hfuel line marked toExec.
  pose proof (execute_line fuel ks k ti Hk Hpos Hp) as Hex.
  fold line marked toExec in Hex.
  split; [intros d; apply marked_all_complete|].
  split; [exact Hex|].
  destruct (validate_input_total (S fuel) line ti Hwf) as [ti1 [E _]];
    [lia|].
  rewrite Hex in E.
  destruct (run_all_fresh (validate_input fuel)
              (validate_input_fresh fuel) toExec _ ti1 [] E)
    as [_ [new [He [Hn [Hf Hi]]]]].
  - apply batch_NoDup.
  - intros i _ [].
  - intros i Hin. simpl in Hin. now apply batch_marked.
  - exists ti1, new. rewrite Hex.
    split; [exact E|]. split; [exact He|]. split; [exact Hn|]. split.
    + intros i Hin. apply NoDup_count_occ'; [exact Hn|now apply Hi].
    + intros i Hin. now apply Hf.
Qed.

Lemma C10_batch_marked_before_dispatch_witness :
  let d := mkDepot 0 4000 "alpha" [] [] in
  let ti := mkThreadInfo d
              [mkDefer 7 ("Execute:7:again:now" +++ nl) false;
               mkDefer 7 ("Deliver:2:bolt" +++ nl) false;
               mkDefer 8 ("Withdraw:1:bolt" +++ nl) false]
              3 0 1 2 true true [] in
  let line := join ["Execute"; "7"] in
  let marked := map (mark 7) (deferred ti) in
  let toExec := batch 7 0 (deferred ti) in
  (forall d, In d marked -> key d = 7 -> complete d = true)
  /\ validate_input 5 line ti
     = run_all (validate_input 4) toExec
               (set_deferred marked (scanned line ti))
  /\ exists ti1 new,
      validate_input 5 line ti = Some ti1
      /\ events ti1 = events ti ++ new
      /\ NoDup (redispatched new)
      /\ (forall i, In i (map fst toExec) ->
                    count_occ Nat.eq_dec (redispatched new) i = 1%nat)
      /\ (forall i, In i (redispatched new) ->
                    complete_at i (deferred ti1)).
Proof.
  intros d ti line marked toExec.
  apply (C10_batch_marked_before_dispatch 4 ti "7" 7).
  - reflexivity.
  - reflexivity.
  - reflexivity.
  - reflexivity.
  - unfold ti, pending. simpl. lia.
Defined.

(** A stored [Execute] of the same key inside the batch finds nothing
    left to run: the batch of two is re-dispatched once each, in order. *)
Example nested_execute_runs_nothing_twice :
  let d := mkDepot 0 4000 "alpha" [] [] in
  let ti := mkThreadInfo d
              [mkDefer 7 ("Execute:7:again:now" +++ nl) false;
               mkDefer 7 ("Deliver:2:bolt" +++ nl) false;
               mkDefer 8 ("Withdraw:1:bolt" +++ nl) false]
              3 0 1 2 true true [] in
  exists ti1,
    validate_input 5 "Execute:7" ti = Some ti1
    /\ events ti1 = [Redispatch 0; Redispatch 1]
    /\ resources (depot ti1) = [mkResource "bolt" 2]
    /\ map complete (deferred ti1) = [true; true; false].
Proof.
  eexists. split; [vm_compute; reflexivity|].
  repeat split; reflexivity.
Qed.

(** * Further properties of the code *)

(** ** The neighbour registry *)

Lemma neighbour_found_false name portNo ns :
  neighbour_found name portNo ns false = false ->
  forall n, In n ns -> n_name n <> name /\ n_portNo n <> portNo.
Proof.
  induction ns as [|m ns IH]; simpl; [contradiction|].
  rewrite strcmp_eqb.
  destruct (String.eqb_spec name (n_name m)) as [E|E].
  { rewrite neighbour_found_true. discriminate. }
  destruct (Z.eqb_spec portNo (n_portNo m)) as [E'|E'].
  { rewrite neighbour_found_true. discriminate. }
  intros H n [<-|Hin]; [split; congruence|now apply IH].
Qed.

(** [im_message] either leaves the session as it is or registers. *)
Lemma im_message_cases a ti :
  im_message a ti = ti
  \/ (imRecieved ti = false
      /\ numColons (depot ti) = 2
      /\ verify_num (arg 1 a) <> 0
      /\ verify_name (arg 2 a) <> ""
      /\ neighbour_found (verify_name (arg 2 a)) (verify_num (arg 1 a))
           (neighbours (depot ti)) false = false
      /\ im_message a ti
         = set_imRecieved true
             (set_depot
                (set_neighbours
                   (neighbours (depot ti)
                      ++ [mkNeighbour (verify_name (arg 2 a))
                                      (verify_num (arg 1 a))
                                      (t_to ti) (t_from ti)])
                   (depot ti)) ti)).
Proof.
  unfold im_message. rewrite strcmp_eqb.
  destruct (Z.eqb_spec (verify_num (arg 1 a)) 0) as [E1|E1];
    [now left|].
  destruct (String.eqb_spec (verify_name (arg 2 a)) "") as [E2|E2];
    [now left|].
  destruct (Z.eqb_spec (numColons (depot ti)) 2) as [E3|E3];
    [|now left].
  destruct (imRecieved ti) eqn:E4; [now left|]. simpl.
  destruct (neighbour_found _ _ _ false) eqn:E5; [now left|].
  right. repeat split; auto.
Qed.

Lemma neighbours_im a ti :
  neighbours_distinct (neighbours (depot ti)) ->
  neighbours_distinct (neighbours (depot (im_message a ti))).
Proof.
  intros [Hn Hp].
  destruct (im_message_cases a ti) as [->|[_ [_ [_ [_ [Hf ->]]]]]];
    [now split|].
  pose proof (neighbour_found_false _ _ _ Hf) as Hnew.
  simpl. unfold neighbours_distinct. rewrite !map_app. simpl.
  split; (apply NoDup_app; [assumption|repeat constructor; intros []|]).
  - intros x Hx [<-|[]]. apply in_map_iff in Hx.
    destruct Hx as [n [E Hin]]. destruct (Hnew n Hin). congruence.
  - intros x Hx [<-|[]]. apply in_map_iff in Hx.
    destruct Hx as [n [E Hin]]. destruct (Hnew n Hin). congruence.
Qed.

(** Each of [deliver_message] and [withdraw_message] either leaves the
    session as it is or replaces the inventory by its adjusted copy. *)
Lemma deliver_message_cases a ti :
  deliver_message a ti = ti
  \/ (0 < verify_num (arg 1 a) /\ numColons (depot ti) = 2
      /\ deliver_message a ti
         = set_depot
             (set_resources
                (adjust (verify_name (arg 2 a))
                        (fun x => to_int (x + verify_num (arg 1 a)))
                        (verify_num (arg 1 a)) (resources (depot ti)))
                (depot ti)) ti).
Proof.
  unfold deliver_message, adjust.
  destruct (Z.ltb_spec 0 (verify_num (arg 1 a))); [|now left].
  destruct (Z.eqb_spec (numColons (depot ti)) 2); [|now left].
  right. simpl. destruct (update_first _ _ _ _) as [rs d]. auto.
Qed.

Lemma withdraw_message_cases a ti :
  withdraw_message a ti = ti
  \/ (0 < verify_num (arg 1 a) /\ numColons (depot ti) = 2
      /\ withdraw_message a ti
         = set_depot
             (set_resources
                (adjust (verify_name (arg 2 a))
                        (fun x => to_int (x - verify_num (arg 1 a)))
                        (to_int (0 - verify_num (arg 1 a)))
                        (resources (depot ti)))
                (depot ti)) ti).
Proof.
  unfold withdraw_message, adjust.
  destruct (Z.ltb_spec 0 (verify_num (arg 1 a))); [|now left].
  destruct (Z.eqb_spec (numColons (depot ti)) 2); [|now left].
  right. simpl. destruct (update_first _ _ _ _) as [rs d]. auto.
Qed.

(** [transfer_message] either only forces the count, or finds the first
    neighbour with the target name, withdraws and writes to it. *)
Lemma transfer_message_cases a ti :
  let forced := set_depot (set_numColons 2 (depot ti)) ti in
  (find (fun n => (strcmp (arg 3 a) (n_name n) =? 0)%Z)
        (neighbours (depot ti)) = None
   /\ transfer_message a ti = forced)
  \/ (exists n,
         find (fun n => (strcmp (arg 3 a) (n_name n) =? 0)%Z)
              (neighbours (depot ti)) = Some n
         /\ transfer_message a ti
            = emit (Sent (n_to n)
                         ("Deliver:" +++ arg 1 a +++ ":" +++ arg 2 a +++ nl))
                   (withdraw_message [""; arg 1 a; arg 2 a] forced)).
Proof.
  intros forced. unfold transfer_message. simpl neighbours.
  destruct (find _ (neighbours (depot ti))) as [n|]; [right|left]; eauto.
Qed.

Lemma transfer_registry a ti :
  neighbours (depot (transfer_message a ti)) = neighbours (depot ti)
  /\ d_name (depot (transfer_message a ti)) = d_name (depot ti)
  /\ d_portNo (depot (transfer_message a ti)) = d_portNo (depot ti).
Proof.
  destruct (transfer_message_cases a ti) as [[_ ->]|[n [_ ->]]];
    [now repeat split|].
  simpl.
  destruct (withdraw_message_cases [""; arg 1 a; arg 2 a]
              (set_depot (set_numColons 2 (depot ti)) ti))
    as [->|[_ [_ ->]]]; now repeat split.
Qed.

(** X1: no session ever makes two neighbours share a name or a port. *)
Theorem neighbours_distinct_preserved
    (fuel : nat) (lines : list string) (ti ti' : ThreadInfo)
    (rest : list string) :
  session_loop fuel lines ti = Some (ti', rest) ->
  neighbours_distinct (neighbours (depot ti)) ->
  neighbours_distinct (neighbours (depot ti')).
Proof.
  apply (session_loop_invariant
           (fun t => neighbours_distinct (neighbours (depot t))));
    try (frame_step; fail).
  - apply neighbours_im.
  - intros a t H. now destruct (transfer_registry a t) as [-> _].
Qed.

Lemma neighbours_distinct_preserved_witness :
  let d := mkDepot 0 4000 "alpha" [] [mkNeighbour "beta" 9999 7 8] in
  let ti := mkThreadInfo d [] 0 0 1 2 true false [] in
  let ti' :=
    mkThreadInfo
      (mkDepot 2 4000 "alpha" []
               [mkNeighbour "beta" 9999 7 8; mkNeighbour "gamma" 9998 1 2])
      [] 2 0 1 2 true true [] in
  neighbours_distinct (neighbours (depot ti')).
Proof.
  intros d ti ti'.
  apply (neighbours_distinct_preserved
           1 ["IM:9998:beta"; "IM:9998:gamma"] ti ti' []).
  - reflexivity.
  - split; repeat constructor; intros [].
Defined.

(** X2: a session never removes or alters a neighbour and never changes
    the depot's own name and port: the registry only grows at its end. *)
Theorem registry_only_grows
    (fuel : nat) (lines : list string) (ti ti' : ThreadInfo)
    (rest : list string) :
  session_loop fuel lines ti = Some (ti', rest) ->
  (exists extra,
      neighbours (depot ti') = neighbours (depot ti) ++ extra)
  /\ d_name (depot ti') = d_name (depot ti)
  /\ d_portNo (depot ti') = d_portNo (depot ti).
Proof.
  intros H.
  apply (session_loop_invariant
           (fun t => (exists extra,
                         neighbours (depot t)
                         = neighbours (depot ti) ++ extra)
                     /\ d_name (depot t) = d_name (depot ti)
                     /\ d_portNo (depot t) = d_portNo (depot ti))
           ) with (fuel := fuel) (lines := lines) (ti := ti) (rest := rest);
    try (frame_step; fail); try exact H.
  - intros a t [[extra He] [Hn Hp]].
    destruct (im_message_cases a t) as [->|[_ [_ [_ [_ [_ ->]]]]]];
      [eauto|].
    simpl. split; [|auto]. rewrite He, <- app_assoc. eauto.
  - intros a t. destruct (transfer_registry a t) as [-> [-> ->]]. auto.
  - split; [|auto]. exists []. now rewrite app_nil_r.
Qed.

Lemma registry_only_grows_witness :
  let d := mkDepot 0 4000 "alpha" [] [mkNeighbour "beta" 9999 7 8] in
  let ti := mkThreadInfo d [] 0 0 1 2 true false [] in
  let ti' :=
    mkThreadInfo
      (mkDepot 2 4000 "alpha" []
               [mkNeighbour "beta" 9999 7 8; mkNeighbour "gamma" 9998 1 2])
      [] 2 0 1 2 true true [] in
  (exists extra,
      neighbours (depot ti') = neighbours (depot ti) ++ extra)
  /\ d_name (depot ti') = d_name (depot ti)
  /\ d_portNo (depot ti') = d_portNo (depot ti).
Proof.
  intros d ti ti'.
  apply (registry_only_grows 1 ["IM:9998:beta"; "IM:9998:gamma"] ti ti' []).
  reflexivity.
Defined.

(** ** The introduction *)






(** ** [Connect] *)






(** ** [Transfer] *)











(** ** [Deliver] and [Withdraw]: what is and is not checked *)

Lemma verify_num_rejects (qs : string) :
  snd (strtol qs) <> "" \/ fst (strtol qs) <= 0 -> verify_num qs = 0.
Proof.
  unfold verify_num. destruct (strtol qs) as [output ptr]. simpl.
  intros [H|H].
  - apply String.eqb_neq in H. now rewrite H.
  - destruct (Z.ltb_spec 0 output); [lia|]. now rewrite andb_false_r.
Qed.

(** X7: a [Deliver] or [Withdraw] whose quantity is not an integer read to
    its end, or is not greater than zero, changes nothing but the
    delimiter count. *)
Theorem inventory_command_bad_quantity
    (fuel : nat) (ti : ThreadInfo) (verb qs good : string) :
  verb = "Deliver" \/ verb = "Withdraw" ->
  field_ok qs -> field_ok good ->
  snd (strtol qs) <> "" \/ fst (strtol qs) <= 0 ->
  validate_input (S fuel) (join [verb; qs; good]) ti
  = Some (scanned (join [verb; qs; good]) ti).
Proof.
  intros Hverb Hq Hg Hbad.
  pose proof (verify_num_rejects qs Hbad) as Hz.
  destruct Hverb as [-> | ->].
  - rewrite (validate_input_join fuel "Deliver" [qs; good] 2);
      [|reflexivity|].
    2:{ constructor; [split; [reflexivity|discriminate]|].
        repeat (constructor; [assumption|]). constructor. }
    cbn [do_input]. f_equal.
    destruct (deliver_message_cases ["Deliver"; qs; good]
                (scanned (join ["Deliver"; qs; good]) ti))
      as [E|[Hpos _]]; [exact E|].
    change (arg 1 ["Deliver"; qs; good]) with qs in Hpos. lia.
  - rewrite (validate_input_join fuel "Withdraw" [qs; good] 3);
      [|reflexivity|].
    2:{ constructor; [split; [reflexivity|discriminate]|].
        repeat (constructor; [assumption|]). constructor. }
    cbn [do_input]. f_equal.
    destruct (withdraw_message_cases ["Withdraw"; qs; good]
                (scanned (join ["Withdraw"; qs; good]) ti))
      as [E|[Hpos _]]; [exact E|].
    change (arg 1 ["Withdraw"; qs; good]) with qs in Hpos. lia.
Qed.

Lemma inventory_command_bad_quantity_witness :
  let d := mkDepot 0 4000 "alpha" [mkResource "widget" 10] [] in
  let ti := mkThreadInfo d [] 3 0 1 2 true true [] in
  validate_input 1 "Withdraw:-5:widget" ti
  = Some (scanned "Withdraw:-5:widget" ti).
Proof.
  intros d ti.
  apply (inventory_command_bad_quantity 0 ti "Withdraw" "-5" "widget").
  - right. reflexivity.
  - split; [reflexivity|discriminate].
  - split; [reflexivity|discriminate].
  - right. discriminate.
Defined.

(** X8: [deliver_message] and [withdraw_message] do not test the name
    that [verify_name] returns.  A good with a forbidden character (a
    space or a carriage return inside the field) is not rejected: the
    quantity is booked on the entry with the empty name, which is created
    if it is missing. *)
Theorem invalid_good_booked_on_empty_name
    (fuel : nat) (ti : ThreadInfo) (qs good : string) (n : Z) :
  plain qs = true -> verify_num qs = n -> 0 < n ->
  field_ok good -> has_invalid_char good = true ->
  validate_input (S fuel) (join ["Deliver"; qs; good]) ti
  = Some (set_depot
            (set_resources
               (adjust "" (fun a => to_int (a + n)) n
                       (resources (depot ti)))
               (depot (scanned (join ["Deliver"; qs; good]) ti)))
            (scanned (join ["Deliver"; qs; good]) ti))
  /\ validate_input (S fuel) (join ["Withdraw"; qs; good]) ti
     = Some (set_depot
               (set_resources
                  (adjust "" (fun a => to_int (a - n)) (to_int (0 - n))
                          (resources (depot ti)))
                  (depot (scanned (join ["Withdraw"; qs; good]) ti)))
               (scanned (join ["Withdraw"; qs; good]) ti)).
Proof.
  intros Hp Hn Hpos Hg Hinv.
  assert (Hq : field_ok qs).
  { split; [exact Hp|]. apply verify_num_nonempty. lia. }
  assert (Hname : verify_name good = "").
  { unfold verify_name. rewrite Hinv. now destruct (negb _). }
  split.
  - rewrite (validate_input_join fuel "Deliver" [qs; good] 2);
      [|reflexivity|].
    2:{ constructor; [split; [reflexivity|discriminate]|].
        repeat (constructor; [assumption|]). constructor. }
    cbn [do_input]. f_equal.
    destruct (scanned_join ["Deliver"; qs; good] ti) as [_ Hc];
      [discriminate| |].
    { constructor; [split; [reflexivity|discriminate]|].
      repeat (constructor; [assumption|]). constructor. }
    unfold deliver_message.
    change (arg 1 ["Deliver"; qs; good]) with qs.
    change (arg 2 ["Deliver"; qs; good]) with good.
    rewrite Hn, Hname, Hc. apply Z.ltb_lt in Hpos. rewrite Hpos.
    simpl andb. cbv iota. unfold adjust. simpl resources.
    destruct (update_first _ _ _ _) as [rs d]. reflexivity.
  - rewrite (validate_input_join fuel "Withdraw" [qs; good] 3);
      [|reflexivity|].
    2:{ constructor; [split; [reflexivity|discriminate]|].
        repeat (constructor; [assumption|]). constructor. }
    cbn [do_input]. f_equal.
    destruct (scanned_join ["Withdraw"; qs; good] ti) as [_ Hc];
      [discriminate| |].
    { constructor; [split; [reflexivity|discriminate]|].
      repeat (constructor; [assumption|]). constructor. }
    unfold withdraw_message.
    change (arg 1 ["Withdraw"; qs; good]) with qs.
    change (arg 2 ["Withdraw"; qs; good]) with good.
    rewrite Hn, Hname, Hc. apply Z.ltb_lt in Hpos. rewrite Hpos.
    simpl andb. cbv iota. unfold adjust. simpl resources.
    destruct (update_first _ _ _ _) as [rs d]. reflexivity.
Qed.

Lemma invalid_good_booked_on_empty_name_witness :
  let d := mkDepot 0 4000 "alpha" [mkResource "widget" 10] [] in
  let ti := mkThreadInfo d [] 3 0 1 2 true true [] in
  validate_input 1 "Deliver:5:wid get" ti
  = Some (set_depot
            (set_resources
               (adjust "" (fun a => to_int (a + 5)) 5
                       (resources (depot ti)))
               (depot (scanned "Deliver:5:wid get" ti)))
            (scanned "Deliver:5:wid get" ti))
  /\ validate_input 1 "Withdraw:5:wid get" ti
     = Some (set_depot
               (set_resources
                  (adjust "" (fun a => to_int (a - 5)) (to_int (0 - 5))
                          (resources (depot ti)))
                  (depot (scanned "Withdraw:5:wid get" ti)))
               (scanned "Withdraw:5:wid get" ti)).
Proof.
  intros d ti.
  apply (invalid_good_booked_on_empty_name 0 ti "5" "wid get" 5).
  - reflexivity.
  - reflexivity.
  - reflexivity.
  - split; [reflexivity|discriminate].
  - reflexivity.
Defined.

(** The spec's scenario 6 on the model: [Deliver:5:wid get] is not
    discarded; it creates the entry with the empty name. *)
Example deliver_with_space_in_good :
  let d := mkDepot 0 4000 "alpha" [mkResource "widget" 10] [] in
  let ti := mkThreadInfo d [] 3 0 1 2 true true [] in
  exists ti',
    validate_input 1 "Deliver:5:wid get" ti = Some ti'
    /\ resources (depot ti') = [mkResource "widget" 10; mkResource "" 5].
Proof. eexists. split; [vm_compute; reflexivity|reflexivity]. Qed.

(** ** [Defer] and [Execute]: keys, composition, what is kept *)

Lemma defer_message_cases a ti :
  defer_message a ti = ti
  \/ (snd (strtol (arg 1 a)) = "" /\ 0 < fst (strtol (arg 1 a))
      /\ defer_creator a <> ""
      /\ defer_message a ti
         = set_deferred
             (deferred ti
                ++ [mkDefer (fst (strtol (arg 1 a))) (defer_creator a) false])
             ti).
Proof.
  unfold defer_message. destruct (strtol (arg 1 a)) as [k ptr]. simpl.
  destruct (String.eqb_spec ptr ""); [|now left].
  destruct (Z.ltb_spec 0 k); [|now left].
  destruct (String.eqb_spec (defer_creator a) ""); [now left|].
  right. auto.
Qed.

(** X9: a [Defer] whose key is not an integer read to its end, or is not
    greater than zero, stores nothing. *)
Theorem defer_bad_key_stores_nothing
    (fuel : nat) (ti : ThreadInfo) (ks : string) (inner : list string) :
  Forall field_ok (ks :: inner) ->
  snd (strtol ks) <> "" \/ fst (strtol ks) <= 0 ->
  validate_input (S fuel) (join ("Defer" :: ks :: inner)) ti
  = Some (scanned (join ("Defer" :: ks :: inner)) ti).
Proof.
  intros Hall Hbad.
  rewrite (validate_input_join fuel "Defer" (ks :: inner) 5);
    [|reflexivity|].
  2:{ constructor; [split; [reflexivity|discriminate]|exact Hall]. }
  cbn [do_input]. f_equal.
  destruct (defer_message_cases ("Defer" :: ks :: inner)
              (scanned (join ("Defer" :: ks :: inner)) ti))
    as [E|[Hptr [Hk _]]]; [exact E|].
  change (arg 1 ("Defer" :: ks :: inner)) with ks in Hptr, Hk.
  destruct Hbad; [contradiction|lia].
Qed.

Lemma defer_bad_key_stores_nothing_witness :
  let d := mkDepot 0 4000 "alpha" [] [] in
  let ti := mkThreadInfo d [] 3 0 1 2 true true [] in
  validate_input 1 "Defer:-7:Deliver:2:bolt" ti
  = Some (scanned "Defer:-7:Deliver:2:bolt" ti).
Proof.
  intros d ti.
  apply (defer_bad_key_stores_nothing 0 ti "-7" ["Deliver"; "2"; "bolt"]).
  - repeat constructor; discriminate.
  - right. discriminate.
Defined.

(** X10: an [Execute] whose key is not a positive integer, or under whose
    key nothing is waiting, changes nothing but the delimiter count. *)
Theorem execute_nothing_to_run
    (fuel : nat) (ti : ThreadInfo) (ks : string) :
  field_ok ks ->
  snd (strtol ks) <> "" \/ fst (strtol ks) <= 0
  \/ (forall d, In d (deferred ti) -> key d = fst (strtol ks) ->
                complete d = true) ->
  validate_input (S fuel) (join ["Execute"; ks]) ti
  = Some (scanned (join ["Execute"; ks]) ti).
Proof.
  intros Hks Hcase.
  rewrite (validate_input_join fuel "Execute" [ks] 6); [|reflexivity|].
  2:{ constructor; [split; [reflexivity|discriminate]|].
      constructor; [exact Hks|constructor]. }
  cbn [do_input]. unfold execute_message.
  change (arg 1 ["Execute"; ks]) with ks.
  destruct (strtol ks) as [k ptr]. simpl in Hcase.
  destruct (String.eqb_spec ptr "") as [Hptr|Hptr]; [|reflexivity].
  destruct (Z.ltb_spec 0 k) as [Hk|Hk]; [|reflexivity].
  destruct Hcase as [H|[H|H]]; [contradiction|lia|].
  simpl andb. cbv iota. rewrite collect_spec.
  pose proof (all_complete_batch k 0 _ H) as Hb.
  change (deferred (scanned (join ["Execute"; ks]) ti)) with (deferred ti).
  rewrite Hb, (mark_unpicked k _ Hb). reflexivity.
Qed.

Lemma execute_nothing_to_run_witness :
  let d := mkDepot 0 4000 "alpha" [] [] in
  let ti := mkThreadInfo d [mkDefer 7 ("Deliver:2:bolt" +++ nl) false]
                         3 0 1 2 true true [] in
  validate_input 1 "Execute:8" ti = Some (scanned "Execute:8" ti).
Proof.
  intros d ti.
  apply (execute_nothing_to_run 0 ti "8").
  - split; [reflexivity|discriminate].
  - right. right. intros x [<-|[]] H. discriminate H.
Defined.






(** ** The scanner *)






(** ** Start-up *)

Lemma is_name_valid_cases (name : string) :
  (is_name_valid name = Ret name /\ valid_name name)
  \/ (is_name_valid name = Exit 1 /\ name = "")
  \/ (is_name_valid name = Exit 2 /\ has_invalid_char name = true).
Proof.
  unfold is_name_valid, valid_name.
  destruct (String.eqb_spec name ""); [right; left; auto|].
  destruct (has_invalid_char name); [right; right; auto|left; auto].
Qed.

Lemma is_amount_valid_cases (qty : string) :
  (exists v, is_amount_valid qty = Ret v /\ v <> 0 /\ in_int v)
  \/ is_amount_valid qty = Exit 3.
Proof.
  unfold is_amount_valid, atoi.
  destruct (strtol qty) as [output ptr]. simpl.
  destruct (Z.eqb_spec (to_int output) 0) as [E|E]; [now right|].
  destruct (0 <=? output)%Z; [|now right].
  destruct (String.eqb ptr ""); [|now right].
  left. exists (to_int output). split; [reflexivity|].
  split; [exact E|apply to_int_range].
Qed.

Lemma gather_resources_cases :
  forall l,
    match gather_resources l with
    | Ret loot => Forall startup_entry_ok loot
    | Exit c => c = 1 \/ c = 2 \/ c = 3
    end.
Proof.
  fix IH 1. intros [|good [|qty rest]].
  - simpl. constructor.
  - simpl.
    destruct (is_name_valid_cases good) as [[-> _]|[[-> _]|[-> _]]];
      simpl; auto.
  - cbn [gather_resources].
    destruct (is_name_valid_cases good) as [[-> Hv]|[[-> _]|[-> _]]];
      simpl; auto.
    destruct (is_amount_valid_cases qty) as [[v [-> [Hnz Hint]]]| ->];
      simpl; auto.
    specialize (IH rest).
    destruct (gather_resources rest) as [loot|c]; simpl; [|exact IH].
    constructor; [|exact IH]. split; [exact Hv|split; assumption].
Qed.

(** X15: what start-up hands over.  If [main] reaches the server, the
    depot has the name given, a valid name, no neighbour, and one entry
    for every good/quantity pair of the command line, in order, each with
    a valid name and an [int] amount other than zero.  Otherwise the
    process has left with code 1, 2 or 3. *)
Theorem startup_result (port : Z) (argv : list string) :
  match main port argv with
  | Ret d =>
      d_portNo d = port
      /\ d_name d = nth 1 argv ""
      /\ valid_name (d_name d)
      /\ neighbours d = []
      /\ names (resources d) = paired_goods (skipn 2 argv)
      /\ Forall startup_entry_ok (resources d)
  | Exit c => c = 1 \/ c = 2 \/ c = 3
  end.
Proof.
  destruct argv as [|prog [|name rest]]; simpl; auto.
  destruct (is_name_valid_cases name) as [[-> Hv]|[[-> _]|[-> _]]];
    simpl; auto.
  pose proof (gather_resources_cases rest) as Hg.
  pose proof (gather_resources_names rest) as Hn.
  destruct (gather_resources rest) as [loot|c]; simpl; [|exact Hg].
  split; [reflexivity|]. split; [reflexivity|]. split; [exact Hv|].
  split; [reflexivity|]. split; [now apply Hn|exact Hg].
Qed.

(** X16: a good at the end of the command line that has no quantity after
    it is checked like any other name but is not recorded. *)
Theorem trailing_good_not_recorded :
  forall (l : list string) (good : string),
    Nat.even (List.length l) = true ->
    gather_resources (l ++ [good])
    = (loot <- gather_resources l ;;
       _ <- is_name_valid good ;;
       Ret loot).
Proof.
  fix IH 1. intros [|g [|q rest]] good Hev.
  - simpl. now destruct (is_name_valid good).
  - discriminate Hev.
  - change ((g :: q :: rest) ++ [good]) with (g :: q :: (rest ++ [good])).
    cbn [gather_resources].
    destruct (is_name_valid g) as [r|c]; [|reflexivity]. simpl.
    destruct (is_amount_valid q) as [a|c]; [|reflexivity]. simpl.
    rewrite (IH rest good) by exact Hev.
    destruct (gather_resources rest) as [loot|c]; [|reflexivity]. simpl.
    now destruct (is_name_valid good).
Qed.

Lemma trailing_good_not_recorded_witness :
  gather_resources (["widget"; "5"] ++ ["bolt"])
  = (loot <- gather_resources ["widget"; "5"] ;;
     _ <- is_name_valid "bolt" ;;
     Ret loot).
Proof.
  apply (trailing_good_not_recorded ["widget"; "5"] "bolt").
  reflexivity.
Defined.

(** ** The inventory over a session *)

Lemma names_adjust good update fresh rs :
  names (adjust good update fresh rs)
  = names rs ++ (if has_entry good rs then [] else [good]).
Proof.
  destruct (has_entry good rs) eqn:E.
  - rewrite app_nil_r. now apply names_adjust_present.
  - rewrite (adjust_absent _ _ _ _ E). unfold names. now rewrite map_app.
Qed.

Lemma update_first_in_int good update rs b :
  (forall x, in_int (update x)) ->
  amounts_in_int rs ->
  amounts_in_int (fst (update_first good update rs b)).
Proof.
  intros Hu. revert b.
  induction rs as [|r rs IH]; intros b H; simpl; [constructor|].
  inversion H as [|? ? Hr Hrs]; subst.
  destruct (_ && _).
  - specialize (IH true Hrs). destruct (update_first good update rs true).
    simpl in *. constructor; [apply Hu|exact IH].
  - specialize (IH b Hrs). destruct (update_first good update rs b).
    simpl in *. now constructor.
Qed.

Lemma adjust_in_int good update fresh rs :
  (forall x, in_int (update x)) -> in_int fresh ->
  amounts_in_int rs -> amounts_in_int (adjust good update fresh rs).
Proof.
  intros Hu Hf H. unfold adjust.
  pose proof (update_first_in_int good update rs false Hu H) as H1.
  destruct (update_first good update rs false) as [rs' d]. simpl in *.
  destruct (negb d); [|exact H1].
  apply Forall_app. split; [exact H1|].
  constructor; [exact Hf|constructor].
Qed.

(** X17: a session never removes an inventory entry and never renames
    one: the goods of the inventory stay in place and new goods are added
    at the end; and every amount remains an [int]. *)
Theorem inventory_entries_kept
    (fuel : nat) (lines : list string) (ti ti' : ThreadInfo)
    (rest : list string) :
  session_loop fuel lines ti = Some (ti', rest) ->
  (exists extra,
      names (resources (depot ti'))
      = names (resources (depot ti)) ++ extra)
  /\ (amounts_in_int (resources (depot ti)) ->
      amounts_in_int (resources (depot ti'))).
Proof.
  intros H.
  set (P := fun t : ThreadInfo =>
              (exists extra,
                  names (resources (depot t))
                  = names (resources (depot ti)) ++ extra)
              /\ (amounts_in_int (resources (depot ti)) ->
                  amounts_in_int (resources (depot t)))).
  assert (Hdel : forall a t, P t -> P (deliver_message a t)).
  { intros a t [[extra He] Hi].
    destruct (deliver_message_cases a t) as [->|[_ [_ ->]]];
      [split; eauto|].
    split; simpl.
    - rewrite names_adjust, He, <- app_assoc. eauto.
    - intros H0. apply adjust_in_int; auto.
      + intros x. apply to_int_range.
      + apply verify_num_range. }
  assert (Hwd : forall a t, P t -> P (withdraw_message a t)).
  { intros a t [[extra He] Hi].
    destruct (withdraw_message_cases a t) as [->|[_ [_ ->]]];
      [split; eauto|].
    split; simpl.
    - rewrite names_adjust, He, <- app_assoc. eauto.
    - intros H0. apply adjust_in_int; auto.
      + intros x. apply to_int_range.
      + apply to_int_range. }
  apply (session_loop_invariant P)
    with (fuel := fuel) (lines := lines) (ti := ti) (rest := rest);
    try exact H; auto.
  - intros a t Ht. unfold connect_message. break_if; exact Ht.
  - intros a t Ht.
    destruct (im_message_cases a t) as [->|[_ [_ [_ [_ [_ ->]]]]]];
      exact Ht.
  - intros a t Ht.
    destruct (transfer_message_cases a t) as [[_ ->]|[n [_ ->]]];
      [exact Ht|].
    apply (Hwd [""; arg 1 a; arg 2 a]
               (set_depot (set_numColons 2 (depot t)) t)). exact Ht.
  - intros a t Ht.
    destruct (defer_message_cases a t) as [->|[_ [_ [_ ->]]]]; exact Ht.
  - split; [|auto]. exists []. now rewrite app_nil_r.
Qed.

Lemma inventory_entries_kept_witness :
  let d := mkDepot 0 4000 "alpha" [mkResource "widget" 10] [] in
  let ti := mkThreadInfo d [] 3 0 1 2 true true [] in
  let ti' :=
    mkThreadInfo
      (mkDepot 2 4000 "alpha"
               [mkResource "widget" 7; mkResource "bolt" (-1)] [])
      [] 5 0 1 2 true true [] in
  (exists extra,
      names (resources (depot ti'))
      = names (resources (depot ti)) ++ extra)
  /\ (amounts_in_int (resources (depot ti)) ->
      amounts_in_int (resources (depot ti'))).
Proof.
  intros d ti ti'.
  apply (inventory_entries_kept
           1 ["Withdraw:3:widget"; "Withdraw:1:bolt"] ti ti' []).
  vm_compute. reflexivity.
Defined.

(** ** The introduction line: [i_to_s_converter], [im_creator] *)

Lemma digit_char_facts (r : Z) :
  0 <= r < 10 ->
  isdigit (digit_char r) = true /\ digit_val (digit_char r) = r
  /\ Ascii.eqb (digit_char r) newline = false
  /\ Ascii.eqb (digit_char r) colon = false.
Proof.
  intros H.
  assert (r = 0 \/ r = 1 \/ r = 2 \/ r = 3 \/ r = 4 \/ r = 5 \/ r = 6
          \/ r = 7 \/ r = 8 \/ r = 9) as Hr by lia.
  repeat (destruct Hr as [-> | Hr]; [repeat split; reflexivity|]).
  subst r. repeat split; reflexivity.
Qed.

Lemma decimal_pos_step f n acc :
  decimal_pos (S f) n acc
  = if (n / 10 =? 0)%Z then String (digit_char (n mod 10)) acc
    else decimal_pos f (n / 10) (String (digit_char (n mod 10)) acc).
Proof. reflexivity. Qed.

Lemma digits_cons (a : Z) (c : ascii) (r : string) :
  isdigit c = true -> digits a (String c r) = digits (10 * a + digit_val c) r.
Proof. intros H. cbn [digits]. now rewrite H. Qed.

(** Reading back what [decimal_pos] wrote. *)
Lemma digits_decimal_pos :
  forall f n acc a,
    0 <= n < 10 ^ Z.of_nat f ->
    exists m, 0 <= m
              /\ digits a (decimal_pos f n acc)
                 = digits (a * 10 ^ m + n) acc.
Proof.
  induction f as [|f IH]; intros n acc a Hn.
  - exists 0. split; [lia|]. simpl in *. f_equal. lia.
  - rewrite decimal_pos_step.
    assert (Hr : 0 <= n mod 10 < 10) by (apply Z.mod_pos_bound; lia).
    destruct (digit_char_facts _ Hr) as [Hd [Hv _]].
    pose proof (Z.div_mod n 10 ltac:(lia)) as Hdm.
    destruct (Z.eqb_spec (n / 10) 0) as [E|E].
    + exists 1. split; [lia|]. rewrite digits_cons, Hv by exact Hd.
      f_equal. rewrite Z.pow_1_r. lia.
    + destruct (IH (n / 10) (String (digit_char (n mod 10)) acc) a)
        as [m [Hm Hdig]].
      { rewrite Nat2Z.inj_succ, Z.pow_succ_r in Hn by lia.
        split; [apply Z.div_pos; lia|].
        apply Z.div_lt_upper_bound; lia. }
      exists (m + 1). split; [lia|].
      rewrite Hdig, digits_cons, Hv by exact Hd. f_equal.
      rewrite Z.pow_add_r, Z.pow_1_r by lia.
      transitivity (a * (10 ^ m * 10) + (10 * (n / 10) + n mod 10));
        [ring|f_equal; lia].
Qed.

Lemma decimal_pos_plain :
  forall f n acc, plain acc = true -> plain (decimal_pos f n acc) = true.
Proof.
  induction f as [|f IH]; intros n acc Hacc; [exact Hacc|].
  rewrite decimal_pos_step.
  assert (Hr : 0 <= n mod 10 < 10) by (apply Z.mod_pos_bound; lia).
  destruct (digit_char_facts _ Hr) as [_ [_ [Hn Hc]]].
  assert (plain (String (digit_char (n mod 10)) acc) = true)
    by (simpl; now rewrite Hn, Hc, Hacc).
  destruct (n / 10 =? 0)%Z; [assumption|now apply IH].
Qed.

Lemma decimal_pos_head :
  forall f n acc,
    starts_with_digit (decimal_pos (S f) n acc) = true.
Proof.
  intros f. revert f.
  assert (Hgen : forall f n acc,
             starts_with_digit acc = true ->
             starts_with_digit (decimal_pos f n acc) = true).
  { induction f as [|f IH]; intros n acc Hacc; [exact Hacc|].
    rewrite decimal_pos_step.
    assert (Hr : 0 <= n mod 10 < 10) by (apply Z.mod_pos_bound; lia).
    destruct (digit_char_facts _ Hr) as [Hd _].
    destruct (n / 10 =? 0)%Z; [exact Hd|]. apply IH. exact Hd. }
  intros f n acc. rewrite decimal_pos_step.
  assert (Hr : 0 <= n mod 10 < 10) by (apply Z.mod_pos_bound; lia).
  destruct (digit_char_facts _ Hr) as [Hd _].
  destruct (n / 10 =? 0)%Z; [exact Hd|]. apply Hgen. exact Hd.
Qed.

Lemma strtol_starts_with_digit (s : string) :
  starts_with_digit s = true ->
  strtol s = (clamp_long (fst (digits 0 s)), snd (digits 0 s)).
Proof.
  destruct s as [|c rest]; [discriminate|]. intros Hd. simpl in Hd.
  unfold strtol.
  assert (Hsp : skip_space (String c rest) = String c rest).
  { simpl. destruct c as [[] [] [] [] [] [] [] []];
      try discriminate Hd; reflexivity. }
  rewrite Hsp.
  assert (Hsign : (match String c rest with
                   | String "-"%char r => (true, r)
                   | String "+"%char r => (false, r)
                   | _ => (false, String c rest)
                   end) = (false, String c rest)).
  { destruct c as [[] [] [] [] [] [] [] []];
      try discriminate Hd; reflexivity. }
  rewrite Hsign. cbn [starts_with_digit]. rewrite Hd.
  now destruct (digits 0 (String c rest)).
Qed.

Lemma port_digits_ok (port : Z) :
  0 <= port < 10 ^ 8 ->
  strtol (i_to_s_converter port) = (port, "")
  /\ plain (i_to_s_converter port) = true
  /\ i_to_s_converter port <> ""
  /\ (0 < port -> verify_num (i_to_s_converter port) = port).
Proof.
  intros Hp. unfold i_to_s_converter.
  assert (Hs : strtol (decimal_pos 20 port "") = (port, "")).
  { rewrite strtol_starts_with_digit by apply decimal_pos_head.
    destruct (digits_decimal_pos 20 port "" 0) as [m [_ ->]].
    { split; [lia|]. change (Z.of_nat 20) with 20.
      assert (10 ^ 8 < 10 ^ 20) by (apply Z.pow_lt_mono_r; lia). lia. }
    simpl. f_equal. unfold clamp_long, LONG_MIN, LONG_MAX.
    assert (10 ^ 8 < 2 ^ 63 - 1) by reflexivity. lia. }
  split; [exact Hs|]. split; [now apply decimal_pos_plain|]. split.
  - pose proof (decimal_pos_head 19 port "") as Hh.
    intros E. rewrite E in Hh. discriminate Hh.
  - intros Hpos. unfold verify_num. rewrite Hs. simpl.
    apply Z.ltb_lt in Hpos. rewrite Hpos. apply to_int_id.
    unfold in_int, INT_MIN, INT_MAX.
    assert (10 ^ 8 < 2 ^ 31 - 1) by reflexivity. lia.
Qed.

(** X18: reading back a port.  For a port of at most eight digits, the
    text that [i_to_s_converter] writes is plain decimal: [strtol] reads
    it to its end and returns the port, and so does [verify_num] for a
    port greater than zero. *)
Theorem port_text_reads_back (port : Z) :
  0 <= port < 10 ^ 8 ->
  strtol (i_to_s_converter port) = (port, "")
  /\ plain (i_to_s_converter port) = true
  /\ i_to_s_converter port <> ""
  /\ (0 < port -> verify_num (i_to_s_converter port) = port).
Proof. apply port_digits_ok. Qed.

Lemma port_text_reads_back_witness :
  strtol (i_to_s_converter 40961) = (40961, "")
  /\ plain (i_to_s_converter 40961) = true
  /\ i_to_s_converter 40961 <> ""
  /\ (0 < 40961 -> verify_num (i_to_s_converter 40961) = 40961).
Proof.
  apply (port_text_reads_back 40961). split; [discriminate|reflexivity].
Defined.



(** ** The session loop: termination and the check on [msgCount] *)

Lemma pending_app ds ds' : pending (ds ++ ds') = (pending ds + pending ds')%nat.
Proof. unfold pending. now rewrite filter_app, length_app. Qed.

(** One line adds at most one entry that waits to be executed. *)
Lemma step_bound fuel line ti :
  all_inert (deferred ti) = true ->
  (pending (deferred ti) < fuel)%nat ->
  exists ti', validate_input fuel line ti = Some ti'
              /\ all_inert (deferred ti') = true
              /\ (pending (deferred ti') <= S (pending (deferred ti)))%nat.
Proof.
  intros Hwf Hp.
  destruct (validate_input_total fuel line ti Hwf Hp) as [ti' [E [Hi Hm]]].
  exists ti'. split; [exact E|]. split; [exact Hi|].
  destruct (inert line) eqn:Hin.
  - pose proof (marks_only_pending _ _ (Hm eq_refl)). lia.
  - destruct fuel as [|fuel]; [lia|].
    rewrite validate_input_unfold in E.
    unfold inert in Hin. apply orb_false_elim in Hin.
    destruct Hin as [Hverb _]. apply negb_false_iff in Hverb.
    apply String.eqb_eq in Hverb. rewrite Hverb in E.
    cbn [find_message messages] in E. simpl in E.
    injection E as <-.
    destruct (defer_message_cases (fill_args false line)
                (scanned line ti)) as [->|[_ [_ [_ ->]]]].
    + cbn [deferred scanned set_depot]. lia.
    + cbn [deferred set_deferred scanned set_depot].
      rewrite pending_app. unfold pending at 2. cbn. lia.
Qed.

Lemma session_loop_total fuel :
  forall lines ti,
    all_inert (deferred ti) = true ->
    (pending (deferred ti) + List.length lines <= fuel)%nat ->
    exists ti' rest, session_loop fuel lines ti = Some (ti', rest).
Proof.
  induction lines as [|line lines IH]; intros ti Hwf Hp.
  - simpl. eauto.
  - cbn [session_loop]. destruct (_ && _); [eauto|].
    simpl in Hp.
    destruct (step_bound fuel line ti Hwf) as [t1 [-> [Hwf1 Hp1]]]; [lia|].
    apply IH; simpl; [exact Hwf1|lia].
Qed.

Lemma session_loop_mono fuel fuel' :
  (fuel <= fuel')%nat ->
  forall lines ti r,
    session_loop fuel lines ti = Some r ->
    session_loop fuel' lines ti = Some r.
Proof.
  intros Hle. induction lines as [|line lines IH]; intros ti r H.
  - exact H.
  - cbn [session_loop] in *. destruct (_ && _); [exact H|].
    destruct (validate_input fuel line ti) as [t1|] eqn:E; [|discriminate].
    rewrite (validate_input_mono fuel fuel' line ti t1 Hle E).
    now apply IH.
Qed.

(** X20: every session comes to an end.  [validate_input] and
    [execute_message] call each other, but a stored command can never
    store another one, so the nesting is bounded by the number of lines
    read: with that much fuel a session on any finite input returns, and
    more fuel gives the same result. *)
Theorem session_terminates
    (fuel : nat) (ti : ThreadInfo) (to from : FILEp)
    (lines : list string) :
  (List.length lines <= fuel)%nat ->
  exists ti' rest,
    client_connections fuel ti to from lines = Some (ti', rest)
    /\ forall fuel', (fuel <= fuel')%nat ->
                     client_connections fuel' ti to from lines
                     = Some (ti', rest).
Proof.
  intros Hlen. unfold client_connections.
  destruct (session_loop_total fuel lines
              (mkThreadInfo (depot ti) [] 0 (t_portNo ti) to from true false
                 (events ti ++ [Sent to (im_creator (depot ti))])))
    as [ti' [rest E]]; [reflexivity|simpl; lia|].
  exists ti', rest. split; [exact E|].
  intros fuel' Hle. eapply session_loop_mono; eauto.
Qed.

Lemma session_terminates_witness :
  let d := mkDepot 0 4000 "alpha" [] [] in
  let ti := mkThreadInfo d [] 0 0 0 0 false false [] in
  let lines := ["IM:9999:beta"; "Defer:7:Execute:7:a";
                "Defer:7:Deliver:2:bolt"; "Execute:7"] in
  exists ti' rest,
    client_connections 4 ti 1 2 lines = Some (ti', rest)
    /\ forall fuel', (4 <= fuel')%nat ->
                     client_connections fuel' ti 1 2 lines
                     = Some (ti', rest).
Proof.
  intros d ti lines.
  apply (session_terminates 4 ti 1 2 lines).
  simpl. lia.
Defined.






(** ** The snapshot and the state it leaves *)

Lemma find_by_key_unique {A : Type} (key : A -> string) (l : list A) (r : A) :
  NoDup (map key l) -> In r l ->
  find (fun x => String.eqb (key r) (key x)) l = Some r.
Proof.
  induction l as [|x l IH]; intros Hnd Hin; [contradiction|].
  inversion Hnd as [|? ? Hx Hl]; subst. simpl.
  destruct (String.eqb_spec (key r) (key x)) as [E|E].
  - destruct Hin as [->|Hin]; [reflexivity|].
    exfalso. apply Hx. rewrite <- E. now apply in_map.
  - destruct Hin as [->|Hin]; [congruence|]. now apply IH.
Qed.

Lemma find_by_key_perm {A : Type} (key : A -> string) (l l' : list A)
    (g : string) :
  Permutation l l' -> NoDup (map key l) ->
  find (fun x => String.eqb g (key x)) l'
  = find (fun x => String.eqb g (key x)) l.
Proof.
  intros Hp Hnd.
  assert (Hnd' : NoDup (map key l')).
  { eapply Permutation_NoDup; [|exact Hnd]. now apply Permutation_map. }
  destruct (find (fun x => String.eqb g (key x)) l) as [r|] eqn:F.
  - apply find_some in F. destruct F as [Hin Hk].
    apply String.eqb_eq in Hk. subst g.
    apply find_by_key_unique; [exact Hnd'|].
    eapply Permutation_in; eauto.
  - destruct (find (fun x => String.eqb g (key x)) l') as [r|] eqn:F';
      [|reflexivity].
    apply find_some in F'. destruct F' as [Hin Hk].
    apply (Permutation_in _ (Permutation_sym Hp)) in Hin.
    pose proof (find_none _ _ F _ Hin) as Hno. simpl in Hno. congruence.
Qed.

Lemma find_neighbour_eqb target ns :
  find_neighbour target ns
  = find (fun n => String.eqb target (n_name n)) ns.
Proof.
  unfold find_neighbour. induction ns as [|n ns IH]; simpl; [reflexivity|].
  now rewrite strcmp_eqb, IH.
Qed.

(** A session on a dialled connection is the session on an accepted one. *)
Lemma new_connection_as_client fuel ti to from lines :
  new_connection fuel ti to from lines
  = client_connections fuel ti to from lines.
Proof. reflexivity. Qed.

Section SnapshotState.

Variable qsort : forall A : Type, (A -> A -> Z) -> list A -> list A.

Hypothesis qsort_perm :
  forall A cmp l, Permutation (qsort A cmp l) l.

(** X22: a snapshot sorts the two arrays of the depot in place.  It
    keeps the depot's name and port and only rearranges the entries; with
    one entry per good every quantity and the invariant itself survive,
    and with distinct neighbour names every [Transfer] target still finds
    the same neighbour. *)
Theorem snapshot_keeps_state (d : Depot) :
  let d' := snd (sigcatcher qsort d) in
  Permutation (resources d') (resources d)
  /\ Permutation (neighbours d') (neighbours d)
  /\ d_name d' = d_name d /\ d_portNo d' = d_portNo d
  /\ (one_entry_per_good (resources d) ->
      one_entry_per_good (resources d')
      /\ forall good, quantity good (resources d')
                      = quantity good (resources d))
  /\ (NoDup (map n_name (neighbours d)) ->
      forall target, find_neighbour target (neighbours d')
                     = find_neighbour target (neighbours d)).
Proof.
  intros d'. unfold d', sigcatcher, sort_neigh, sort_resources. simpl.
  pose proof (qsort_perm Resource lexo_cmp (resources d)) as Hr.
  pose proof (qsort_perm Neighbour neigh_cmp (neighbours d)) as Hn.
  split; [exact Hr|]. split; [exact Hn|].
  split; [reflexivity|]. split; [reflexivity|]. split.
  - intros Hone. apply one_entry_NoDup in Hone. split.
    + apply one_entry_NoDup.
      eapply Permutation_NoDup; [|exact Hone].
      apply Permutation_map. now apply Permutation_sym.
    + intros good. unfold quantity.
      rewrite (find_by_key_perm resource (resources d) _ good);
        [reflexivity|now apply Permutation_sym|exact Hone].
  - intros Hnd target. rewrite !find_neighbour_eqb.
    apply find_by_key_perm; [now apply Permutation_sym|exact Hnd].
Qed.

End SnapshotState.

Lemma snapshot_keeps_state_witness :
  let d := mkDepot 0 4000 "alpha"
             [mkResource "widget" 5; mkResource "bolt" (-2)]
             [mkNeighbour "gamma" 9998 3 4; mkNeighbour "beta" 9999 7 8] in
  let d' := snd (sigcatcher insertion_sort d) in
  Permutation (resources d') (resources d)
  /\ Permutation (neighbours d') (neighbours d)
  /\ d_name d' = d_name d /\ d_portNo d' = d_portNo d
  /\ (one_entry_per_good (resources d) ->
      one_entry_per_good (resources d')
      /\ forall good, quantity good (resources d')
                      = quantity good (resources d))
  /\ (NoDup (map n_name (neighbours d)) ->
      forall target, find_neighbour target (neighbours d')
                     = find_neighbour target (neighbours d)).
Proof.
  intros d.
  apply (snapshot_keeps_state insertion_sort insertion_sort_perm d).
Defined.
